(** * iso-countries-utils: lookup, search and flag derivation

    A shallow embedding of [src/utils.ts], the database module and
    [src/index.ts], followed by the properties of the lookup and search
    functions.

    Strings are ECMAScript strings: finite sequences of UTF-16 code units,
    here [list Z].  [undefined] results are [None]; a thrown [RangeError] is
    [None] in the one place where the code can throw
    ([String.fromCodePoint]). *)

From stdpp Require Import gmap list sorting.
From Stdlib Require Import ZArith.
From Stdlib Require String Ascii.
Import String.StringSyntax.
Delimit Scope string_scope with string.

Local Open Scope Z_scope.

(** ** ECMAScript strings *)

Abbreviation jsstring := (list Z).

(** A string literal of Basic Latin characters, as code units. *)
Definition js (s : String.string) : jsstring :=
  (λ a, Z.of_nat (Ascii.nat_of_ascii a)) <$> String.list_ascii_of_string s.
Arguments js s%_string.

Definition isAscii (u : Z) : Prop := 0 ≤ u < 128.
Definition isAsciiLetter (u : Z) : Prop := 65 ≤ u ≤ 90 ∨ 97 ≤ u ≤ 122.

Definition asciiUpper (u : Z) : Z :=
  if (97 <=? u) && (u <=? 122) then u - 32 else u.
Definition asciiLower (u : Z) : Z :=
  if (65 <=? u) && (u <=? 90) then u + 32 else u.

(** [s.length] *)
Definition jsLength (s : jsstring) : Z := Z.of_nat (length s).

(** [s.startsWith(q)]: [q] is a prefix of [s]. *)
Fixpoint startsWith (s q : jsstring) {struct q} : bool :=
  match q, s with
  | [], _ => true
  | _ :: _, [] => false
  | b :: q', a :: s' => (a =? b) && startsWith s' q'
  end.

(** [s.indexOf(q)]: the least position at which [q] occurs in [s], or -1. *)
Fixpoint indexOfFrom (s q : jsstring) (i : Z) : Z :=
  if startsWith s q then i
  else match s with
       | [] => -1
       | _ :: s' => indexOfFrom s' q (i + 1)
       end.
Definition indexOf (s q : jsstring) : Z := indexOfFrom s q 0.

(** [s.includes(q)] *)
Fixpoint includes (s q : jsstring) : bool :=
  startsWith s q ||
  match s with
  | [] => false
  | _ :: s' => includes s' q
  end.

(** The case conversions of the host.  [String.prototype.toUpperCase] and
    [toLowerCase] are built into the engine; the code relies on them only
    through these two functions.  On strings of Basic Latin characters they
    are the familiar letter-wise conversions, which is all the laws say. *)
Class CaseMapping := {
  toUpperCase : jsstring → jsstring;
  toLowerCase : jsstring → jsstring;
  toUpperCase_ascii s : Forall isAscii s → toUpperCase s = asciiUpper <$> s;
  toLowerCase_ascii s : Forall isAscii s → toLowerCase s = asciiLower <$> s
}.

(** A concrete case mapping that follows the Unicode tables
    (UnicodeData and SpecialCasing, as ECMAScript uses them without locale)
    on U+0000..U+00FF and on U+0130, U+0131, U+017F, U+1E9E, U+212A and
    U+212B.  Code units outside that range are left unchanged here. *)
Definition upperUnit (u : Z) : jsstring :=
  if (97 <=? u) && (u <=? 122) then [u - 32]
  else if u =? 0xB5 then [0x39C]
  else if u =? 0xDF then [83; 83]
  else if (0xE0 <=? u) && (u <=? 0xFE) && negb (u =? 0xF7) then [u - 32]
  else if u =? 0xFF then [0x178]
  else if u =? 0x131 then [73]
  else if u =? 0x17F then [83]
  else [u].

Definition lowerUnit (u : Z) : jsstring :=
  if (65 <=? u) && (u <=? 90) then [u + 32]
  else if (0xC0 <=? u) && (u <=? 0xDE) && negb (u =? 0xD7) then [u + 32]
  else if u =? 0x130 then [105; 0x307]
  else if u =? 0x1E9E then [0xDF]
  else if u =? 0x212A then [107]
  else if u =? 0x212B then [0xE5]
  else [u].

Definition unitwise (f : Z → jsstring) (s : jsstring) : jsstring :=
  concat (f <$> s).

#[refine] Instance ecmaCase : CaseMapping :=
  {| toUpperCase := unitwise upperUnit; toLowerCase := unitwise lowerUnit |}.
Proof.
  - induction 1 as [|u s Hu _ IH]; [done|].
    unfold unitwise in *; cbn [fmap list_fmap concat]. rewrite IH.
    unfold isAscii in Hu. unfold upperUnit, asciiUpper.
    repeat (case_match; try (exfalso; lia)); done.
  - induction 1 as [|u s Hu _ IH]; [done|].
    unfold unitwise in *; cbn [fmap list_fmap concat]. rewrite IH.
    unfold isAscii in Hu. unfold lowerUnit, asciiLower.
    repeat (case_match; try (exfalso; lia)); done.
Defined.

(** ** [src/utils.ts] *)

(** UTF-16 encoding of one code point, as [String.fromCodePoint] does it;
    a number outside 0..0x10FFFF makes it throw. *)
Definition encodeCodePoint (cp : Z) : option jsstring :=
  if (0 <=? cp) && (cp <=? 0x10FFFF) then
    if cp <=? 0xFFFF then Some [cp]
    else Some [0xD800 + Z.shiftr (cp - 0x10000) 10;
               0xDC00 + Z.land (cp - 0x10000) 0x3FF]
  else None.

Definition fromCodePoint (cps : list Z) : option jsstring :=
  units ← mapM encodeCodePoint cps; Some (concat units).

(** The code points of a string, reading surrogate pairs as
    [String.prototype.codePointAt] does (the inverse of the encoding). *)
Fixpoint codePoints (s : jsstring) : list Z :=
  match s with
  | [] => []
  | hi :: s' =>
      match s' with
      | lo :: s'' =>
          if (0xD800 <=? hi) && (hi <=? 0xDBFF) && (0xDC00 <=? lo) && (lo <=? 0xDFFF)
          then (0x10000 + (hi - 0xD800) * 1024 + (lo - 0xDC00)) :: codePoints s''
          else hi :: codePoints s'
      | [] => [hi]
      end
  end.

Definition getFlagEmoji `{CaseMapping} (alpha2 : jsstring) : option jsstring :=
  let codePoint := (λ char, 127397 + char) <$> toUpperCase alpha2 in
  fromCodePoint codePoint.

(** ** The record types ([./types]) *)

Module BaseCountryData.
Record t := mk {
  name : jsstring;
  alpha2 : jsstring;
  alpha3 : jsstring;
  numeric : jsstring
}.
End BaseCountryData.

Module Country.
Record t := mk {
  name : jsstring;
  alpha2 : jsstring;
  alpha3 : jsstring;
  numeric : jsstring;
  flag : jsstring
}.
End Country.

#[global] Instance Country_eq_dec : EqDecision Country.t.
Proof. solve_decision. Defined.

(** ** The database module: every raw row with its derived flag *)

Module Database.
Definition enrich `{CaseMapping} (data : BaseCountryData.t) : option Country.t :=
  flag ← getFlagEmoji (BaseCountryData.alpha2 data);
  Some {| Country.name := BaseCountryData.name data;
          Country.alpha2 := BaseCountryData.alpha2 data;
          Country.alpha3 := BaseCountryData.alpha3 data;
          Country.numeric := BaseCountryData.numeric data;
          Country.flag := flag |}.

Definition countries `{CaseMapping} (rawCountries : list BaseCountryData.t)
  : option (list Country.t) :=
  mapM enrich rawCountries.
End Database.

(** ** [src/index.ts] *)

Record SearchEntry := {
  original : Country.t;
  lowerName : jsstring
}.

Record Indexes := {
  alpha2Map : gmap jsstring Country.t;
  alpha3Map : gmap jsstring Country.t;
  numericMap : gmap jsstring Country.t
}.

Definition emptyIndexes : Indexes :=
  {| alpha2Map := ∅; alpha3Map := ∅; numericMap := ∅ |}.

(** The body of the [forEach] that fills the three maps. *)
Definition indexCountry (ix : Indexes) (country : Country.t) : Indexes :=
  {| alpha2Map := <[Country.alpha2 country := country]> (alpha2Map ix);
     alpha3Map := <[Country.alpha3 country := country]> (alpha3Map ix);
     numericMap := <[Country.numeric country := country]> (numericMap ix) |}.

(** [Map.prototype.has] *)
Definition mapHas (m : gmap jsstring Country.t) (key : jsstring) : bool :=
  match m !! key with
  | Some _ => true
  | None => false
  end.

(** [Array.prototype.sort] with a comparator.  The sort is stable
    (ECMAScript 2019), and for a comparator that orders its arguments
    consistently the result does not depend on the algorithm
    ([stable_sort_unique] below); it is computed here by insertion from the
    right: an element moves behind exactly those elements the comparator
    puts strictly before it. *)
Fixpoint insertSorted {A} (cmp : A → A → Z) (x : A) (l : list A) : list A :=
  match l with
  | [] => [x]
  | y :: l' => if cmp x y <=? 0 then x :: l else y :: insertSorted cmp x l'
  end.

Definition sort {A} (cmp : A → A → Z) (l : list A) : list A :=
  foldr (insertSorted cmp) [] l.

(** The comparator of [searchByName]. *)
Definition compareEntries (query : jsstring) (a b : SearchEntry) : Z :=
  let indexA := indexOf (lowerName a) query in
  let indexB := indexOf (lowerName b) query in
  if indexA =? indexB then jsLength (lowerName a) - jsLength (lowerName b)
  else indexA - indexB.

Section QueryAPI.
Context `{CaseMapping}.
Variable countries : list Country.t.

Definition searchIndex : list SearchEntry :=
  (λ country, {| original := country;
                 lowerName := toLowerCase (Country.name country) |}) <$> countries.

Definition indexes : Indexes := foldl indexCountry emptyIndexes countries.

Definition getCountryByAlpha2 (alpha2 : jsstring) : option Country.t :=
  alpha2Map indexes !! toUpperCase alpha2.

Definition getCountryByAlpha3 (alpha3 : jsstring) : option Country.t :=
  alpha3Map indexes !! toUpperCase alpha3.

Definition getCountryByNumeric (numeric : jsstring) : option Country.t :=
  numericMap indexes !! numeric.

Definition getEmojiByAlpha2 (alpha2 : jsstring) : option jsstring :=
  let country := getCountryByAlpha2 alpha2 in
  Country.flag <$> country.

Definition getEmojiByAlpha3 (alpha3 : jsstring) : option jsstring :=
  let country := getCountryByAlpha3 alpha3 in
  Country.flag <$> country.

Definition getEmojiByNumeric (numeric : jsstring) : option jsstring :=
  let country := getCountryByNumeric numeric in
  Country.flag <$> country.

(** [!name] holds of the empty string only. *)
Definition getCountryByName (name : jsstring) : option Country.t :=
  match name with
  | [] => None
  | _ =>
      List.find (λ country,
          bool_decide (toLowerCase (Country.name country) = toLowerCase name))
        countries
  end.

Definition searchByName (name : jsstring) : list Country.t :=
  match name with
  | [] => []
  | _ =>
      let query := toLowerCase name in
      original <$>
        sort (compareEntries query)
          (List.filter (λ item, includes (lowerName item) query) searchIndex)
  end.

Definition isValidAlpha2 (code : jsstring) : bool :=
  mapHas (alpha2Map indexes) (toUpperCase code).

Definition isValidAlpha3 (code : jsstring) : bool :=
  mapHas (alpha3Map indexes) (toUpperCase code).
End QueryAPI.

(** ** A few rows for the examples *)

Definition row (name alpha2 alpha3 numeric : String.string) : BaseCountryData.t :=
  BaseCountryData.mk (js name) (js alpha2) (js alpha3) (js numeric).
Arguments row (name alpha2 alpha3 numeric)%_string.

Definition sampleRows : list BaseCountryData.t :=
  [ row "Japan" "JP" "JPN" "392";
    row "Poland" "PL" "POL" "616";
    row "South Korea" "KR" "KOR" "410";
    row "Taiwan" "TW" "TWN" "158";
    row "United States of America" "US" "USA" "840" ].

Definition country (name alpha2 alpha3 numeric : String.string) (flag : jsstring)
    : Country.t :=
  Country.mk (js name) (js alpha2) (js alpha3) (js numeric) flag.
Arguments country (name alpha2 alpha3 numeric)%_string flag.

Definition japan := country "Japan" "JP" "JPN" "392" [0xD83C; 0xDDEF; 0xD83C; 0xDDF5].
Definition poland := country "Poland" "PL" "POL" "616" [0xD83C; 0xDDF5; 0xD83C; 0xDDF1].
Definition southKorea :=
  country "South Korea" "KR" "KOR" "410" [0xD83C; 0xDDF0; 0xD83C; 0xDDF7].
Definition taiwan := country "Taiwan" "TW" "TWN" "158" [0xD83C; 0xDDF9; 0xD83C; 0xDDFC].
Definition unitedStates :=
  country "United States of America" "US" "USA" "840" [0xD83C; 0xDDFA; 0xD83C; 0xDDF8].

(** The database built from [sampleRows]. *)
Definition sample : list Country.t :=
  [japan; poland; southKorea; taiwan; unitedStates].

(** The rows of the dataset ([./raw-data]) are not among the sources, so the
    dataset is a parameter throughout.  The specification says of it that
    each of the three codes is unique across the records and that the keys
    are stored in upper case; the latter reads as follows. *)
Definition storedUppercase `{CaseMapping} (countries : list Country.t) : Prop :=
  Forall (λ c, toUpperCase (Country.alpha2 c) = Country.alpha2 c ∧
               toUpperCase (Country.alpha3 c) = Country.alpha3 c) countries.

(** The last record of the dataset with a given key, if any. *)
Definition lastWith (key : Country.t → jsstring) (k : jsstring)
    (countries : list Country.t) : option Country.t :=
  List.find (λ c, bool_decide (key c = k)) (reverse countries).

(** Substring containment, and the two ranking keys of a record for a
    query. *)
Definition isSubstring (q s : jsstring) : Prop := ∃ l1 l2, s = l1 ++ q ++ l2.

Definition matchPosition `{CaseMapping} (query : jsstring) (c : Country.t) : Z :=
  indexOf (toLowerCase (Country.name c)) query.

Definition nameLength `{CaseMapping} (c : Country.t) : Z :=
  jsLength (toLowerCase (Country.name c)).

(** Earlier match position first, then shorter name. *)
Definition rankLe `{CaseMapping} (query : jsstring) (a b : Country.t) : Prop :=
  matchPosition query a < matchPosition query b ∨
  (matchPosition query a = matchPosition query b ∧ nameLength a ≤ nameLength b).

Definition hasRank `{CaseMapping} (query : jsstring) (pos len : Z) (c : Country.t) : bool :=
  (matchPosition query c =? pos) && (nameLength c =? len).

Definition matches `{CaseMapping} (query : jsstring) (c : Country.t) : bool :=
  includes (toLowerCase (Country.name c)) query.

(** The comparator of [searchByName], read on the records of the entries. *)
Definition compareCountries `{CaseMapping} (query : jsstring) (a b : Country.t) : Z :=
  compareEntries query
    {| original := a; lowerName := toLowerCase (Country.name a) |}
    {| original := b; lowerName := toLowerCase (Country.name b) |}.

(** * Properties *)

(** ** Strings *)

Lemma startsWith_prefix s q : startsWith s q = true ↔ ∃ t, s = q ++ t.
Proof.
  revert s; induction q as [|b q IH]; intros s; cbn.
  - split; [eauto|done].
  - destruct s as [|a s]; cbn.
    + split; [done|]. intros [t Ht]; discriminate.
    + rewrite andb_true_iff, Z.eqb_eq, IH. split.
      * intros [-> [t ->]]; eauto.
      * intros [t [= -> ->]]; eauto.
Qed.

Lemma startsWith_length s q : startsWith s q = true → (length q ≤ length s)%nat.
Proof.
  rewrite startsWith_prefix. intros [t ->]. rewrite length_app. lia.
Qed.

Lemma startsWith_refl s : startsWith s s = true.
Proof. apply startsWith_prefix. exists []. by rewrite app_nil_r. Qed.

Lemma startsWith_same_length s q :
  startsWith s q = true → length s = length q → s = q.
Proof.
  rewrite startsWith_prefix. intros [t ->]. rewrite length_app.
  destruct t; cbn; [by rewrite app_nil_r|lia].
Qed.

Lemma includes_substring s q : includes s q = true ↔ isSubstring q s.
Proof.
  unfold isSubstring. induction s as [|a s IH]; cbn.
  - rewrite orb_false_r, startsWith_prefix. split.
    + intros [t Ht]. exists [], t. done.
    + intros [l1 [l2 Hs]]. destruct l1; [cbn in Hs; eauto|discriminate].
  - rewrite orb_true_iff, IH, startsWith_prefix. split.
    + intros [[t Ht]|[l1 [l2 Hs]]].
      * exists [], t. done.
      * exists (a :: l1), l2. by rewrite Hs.
    + intros [[|a' l1] [l2 Hs]]; cbn in Hs.
      * left; eauto.
      * right. injection Hs as _ ->. eauto.
Qed.

Lemma startsWith_includes s q : startsWith s q = true → includes s q = true.
Proof. destruct s; cbn; intros ->; done. Qed.

Lemma indexOfFrom_shift s q i : includes s q = true →
  indexOfFrom s q i = i + indexOf s q.
Proof.
  unfold indexOf. revert i. induction s as [|a s IH]; intros i; cbn.
  - destruct (startsWith [] q); [lia|done].
  - destruct (startsWith (a :: s) q); cbn; [lia|].
    intros Hs. rewrite (IH (i + 1) Hs), (IH (0 + 1) Hs). lia.
Qed.

Lemma indexOf_absent s q : includes s q = false → indexOf s q = -1.
Proof.
  unfold indexOf. generalize 0. induction s as [|a s IH]; intros i; cbn.
  - destruct (startsWith [] q); done.
  - destruct (startsWith (a :: s) q); cbn; [done|]. apply IH.
Qed.

(** [indexOf] is the position of the first occurrence. *)
Lemma indexOf_first s q : includes s q = true →
  ∃ n : nat, indexOf s q = Z.of_nat n ∧ startsWith (drop n s) q = true ∧
    ∀ m : nat, (m < n)%nat → startsWith (drop m s) q = false.
Proof.
  induction s as [|a s IH]; intros Hs.
  - cbn in Hs. rewrite orb_false_r in Hs. exists 0%nat.
    unfold indexOf; cbn. rewrite Hs. split_and!; [done|done|lia].
  - unfold indexOf. cbn in *. destruct (startsWith (a :: s) q) eqn:Hp.
    + exists 0%nat. split_and!; [done|done|lia].
    + cbn in Hs. destruct (IH Hs) as (n & Hn & Hat & Hbefore).
      exists (S n). rewrite indexOfFrom_shift, Hn by done.
      split_and!; [lia|done|].
      intros [|m] Hm; [done|]. apply Hbefore. lia.
Qed.

Lemma indexOf_nonneg s q : includes s q = true → 0 ≤ indexOf s q.
Proof. intros Hs. destruct (indexOf_first s q Hs) as (n & -> & _). lia. Qed.

Lemma indexOf_zero s q : includes s q = true →
  indexOf s q = 0 → startsWith s q = true.
Proof.
  intros Hs Hz. destruct (indexOf_first s q Hs) as (n & Hn & Hat & _).
  assert (n = 0%nat) as -> by lia. done.
Qed.

Lemma indexOf_startsWith s q : startsWith s q = true → indexOf s q = 0.
Proof. unfold indexOf. destruct s; cbn; intros ->; done. Qed.

(** ** Sorting *)

Section Sort.
Context {A : Type} (cmp : A → A → Z).

Lemma insertSorted_perm x l : insertSorted cmp x l ≡ₚ x :: l.
Proof.
  induction l as [|y l IH]; cbn; [done|].
  destruct (cmp x y <=? 0); [done|]. rewrite IH. apply Permutation_swap.
Qed.

Lemma sort_perm l : sort cmp l ≡ₚ l.
Proof.
  induction l as [|x l IH]; [done|].
  change (sort cmp (x :: l)) with (insertSorted cmp x (sort cmp l)).
  rewrite insertSorted_perm. by f_equiv.
Qed.

(** A class of elements the comparator does not separate keeps its
    order: this is stability. *)
Lemma insertSorted_filter (P : A → bool) x l :
  (∀ a b, P a = true → P b = true → cmp a b ≤ 0) →
  List.filter P (insertSorted cmp x l) = List.filter P (x :: l).
Proof.
  intros Hclass. induction l as [|y l IH]; cbn; [done|].
  destruct (cmp x y <=? 0) eqn:Hxy; [done|].
  apply Z.leb_gt in Hxy. cbn in *. rewrite IH.
  destruct (P x) eqn:Hx, (P y) eqn:Hy; try done.
  specialize (Hclass x y Hx Hy). lia.
Qed.

Lemma sort_stable (P : A → bool) l :
  (∀ a b, P a = true → P b = true → cmp a b ≤ 0) →
  List.filter P (sort cmp l) = List.filter P l.
Proof.
  intros Hclass. induction l as [|x l IH]; [done|].
  change (sort cmp (x :: l)) with (insertSorted cmp x (sort cmp l)).
  rewrite insertSorted_filter by done. cbn [List.filter]. by rewrite IH.
Qed.

Hypothesis cmp_total : ∀ a b, 0 < cmp a b → cmp b a ≤ 0.
Hypothesis cmp_trans : ∀ a b c, cmp a b ≤ 0 → cmp b c ≤ 0 → cmp a c ≤ 0.

Lemma insertSorted_sorted x l :
  StronglySorted (λ a b, cmp a b ≤ 0) l →
  StronglySorted (λ a b, cmp a b ≤ 0) (insertSorted cmp x l).
Proof.
  induction 1 as [|y l Hl IH Hy]; cbn.
  - repeat constructor.
  - destruct (cmp x y <=? 0) eqn:Hxy.
    + apply Z.leb_le in Hxy. constructor; [by constructor|].
      constructor; [done|]. eapply Forall_impl; [exact Hy|].
      intros z Hz. by apply cmp_trans with y.
    + apply Z.leb_gt in Hxy. constructor; [done|].
      rewrite insertSorted_perm. constructor; [by apply cmp_total|done].
Qed.

Lemma sort_sorted l : StronglySorted (λ a b, cmp a b ≤ 0) (sort cmp l).
Proof.
  induction l as [|x l IH]; [constructor|].
  change (sort cmp (x :: l)) with (insertSorted cmp x (sort cmp l)).
  by apply insertSorted_sorted.
Qed.
End Sort.

(** A sorted permutation that keeps the order inside every class of
    equivalent elements is unique: the result of a stable sort does not
    depend on the algorithm that computes it. *)
Section StableSort.
Context {A K : Type} `{EqDecision K} (cmp : A → A → Z) (key : A → K).

Hypothesis cmp_key : ∀ a b, cmp a b ≤ 0 → cmp b a ≤ 0 → key a = key b.
Hypothesis key_cmp : ∀ a b, key a = key b → cmp a b ≤ 0.

Lemma sorted_head_le x t y :
  StronglySorted (λ a b, cmp a b ≤ 0) (x :: t) → y ∈ x :: t → cmp x y ≤ 0.
Proof.
  intros Hs Hy. apply StronglySorted_inv in Hs as [_ Hx].
  apply elem_of_cons in Hy as [->|Hy]; [by apply key_cmp|].
  rewrite Forall_forall in Hx. by apply Hx.
Qed.

Lemma stable_sort_unique l1 l2 :
  l1 ≡ₚ l2 →
  StronglySorted (λ a b, cmp a b ≤ 0) l1 →
  StronglySorted (λ a b, cmp a b ≤ 0) l2 →
  (∀ k, List.filter (λ a, bool_decide (key a = k)) l1 =
        List.filter (λ a, bool_decide (key a = k)) l2) →
  l1 = l2.
Proof.
  revert l2. induction l1 as [|x t1 IH]; intros l2 Hperm Hs1 Hs2 Hclass.
  - by apply Permutation_nil_l in Hperm.
  - destruct l2 as [|y t2]; [by apply Permutation_nil_r in Hperm|].
    assert (cmp x y ≤ 0) as Hxy.
    { apply (sorted_head_le x t1); [done|]. rewrite Hperm. by left. }
    assert (cmp y x ≤ 0) as Hyx.
    { apply (sorted_head_le y t2); [done|]. rewrite <- Hperm. by left. }
    pose proof (Hclass (key x)) as Hk. cbn [List.filter] in Hk.
    rewrite bool_decide_eq_true_2 in Hk by done.
    rewrite (bool_decide_eq_true_2 (key y = key x)) in Hk
      by (symmetry; by apply cmp_key).
    injection Hk as <- _. f_equal.
    apply StronglySorted_inv in Hs1 as [Hs1 _].
    apply StronglySorted_inv in Hs2 as [Hs2 _].
    apply IH; [by apply Permutation_cons_inv in Hperm|done|done|].
    intros k. specialize (Hclass k). cbn [List.filter] in Hclass.
    destruct (bool_decide (key x = k)); [by injection Hclass|done].
Qed.
End StableSort.

Lemma insertSorted_fmap {A B} (f : A → B) (cmp : B → B → Z) x l :
  insertSorted cmp (f x) (f <$> l) =
  f <$> insertSorted (λ a b, cmp (f a) (f b)) x l.
Proof.
  induction l as [|y l IH]; cbn; [done|].
  destruct (cmp (f x) (f y) <=? 0); cbn; [done|]. by rewrite IH.
Qed.

Lemma sort_fmap {A B} (f : A → B) (cmp : B → B → Z) l :
  sort cmp (f <$> l) = f <$> sort (λ a b, cmp (f a) (f b)) l.
Proof.
  induction l as [|x l IH]; [done|].
  change (sort cmp (f <$> x :: l)) with (insertSorted cmp (f x) (sort cmp (f <$> l))).
  rewrite IH. apply insertSorted_fmap.
Qed.

Lemma filter_fmap {A B} (f : A → B) (P : B → bool) l :
  List.filter P (f <$> l) = f <$> List.filter (λ a, P (f a)) l.
Proof.
  induction l as [|x l IH]; cbn; [done|].
  destruct (P (f x)); cbn; by rewrite IH.
Qed.

Lemma filter_filter {A} (P Q : A → bool) l :
  List.filter P (List.filter Q l) = List.filter (λ a, P a && Q a) l.
Proof.
  induction l as [|x l IH]; cbn; [done|].
  destruct (Q x); cbn; rewrite ?andb_true_r, ?andb_false_r;
    [destruct (P x)|]; by rewrite IH.
Qed.

Lemma find_head_filter {A} (P : A → bool) l : List.find P l = head (List.filter P l).
Proof.
  induction l as [|x l IH]; cbn; [done|]. destruct (P x); done.
Qed.

(** ** The three maps *)

Section Index.
Context (key : Country.t → jsstring).

Let put (m : gmap jsstring Country.t) (c : Country.t) := <[key c := c]> m.

Lemma fill_lookup_ne m cs k :
  Forall (λ c, key c ≠ k) cs → foldl put m cs !! k = m !! k.
Proof.
  intros Hcs. revert m. induction Hcs as [|c cs Hc _ IH]; intros m; cbn; [done|].
  rewrite IH. unfold put. by rewrite lookup_insert_ne.
Qed.

Lemma fill_lookup_last m l1 c l2 :
  Forall (λ c', key c' ≠ key c) l2 →
  foldl put m (l1 ++ c :: l2) !! key c = Some c.
Proof.
  intros Hl2. rewrite foldl_app. cbn. rewrite fill_lookup_ne by done.
  unfold put. by rewrite lookup_insert_eq.
Qed.

Lemma fill_lookup_Some m cs k r :
  foldl put m cs !! k = Some r → (r ∈ cs ∧ key r = k) ∨ m !! k = Some r.
Proof.
  revert m. induction cs as [|c cs IH]; intros m; cbn; [auto|].
  intros Hr. destruct (IH _ Hr) as [[Hin Hk]|Hm].
  - left. split; [by right|done].
  - unfold put in Hm. destruct (decide (key c = k)) as [Heq|Hne].
    + rewrite Heq, lookup_insert_eq in Hm. injection Hm as ->.
      left. split; [by left|done].
    + rewrite lookup_insert_ne in Hm by done. by right.
Qed.

Lemma fill_lookup_unique cs r :
  NoDup (key <$> cs) → r ∈ cs → foldl put ∅ cs !! key r = Some r.
Proof.
  intros Hnd Hin. apply list_elem_of_split in Hin as (l1 & l2 & ->).
  apply fill_lookup_last.
  rewrite fmap_app, fmap_cons in Hnd.
  apply NoDup_app in Hnd as (_ & _ & Hnd). apply NoDup_cons in Hnd as [Hnot _].
  apply Forall_forall. intros c' Hc' Heq. apply Hnot. rewrite <- Heq.
  by apply list_elem_of_fmap_2.
Qed.
End Index.

Lemma indexes_alpha2Map ix cs :
  alpha2Map (foldl indexCountry ix cs) =
  foldl (λ m c, <[Country.alpha2 c := c]> m) (alpha2Map ix) cs.
Proof. revert ix. induction cs as [|c cs IH]; intros ix; cbn; [done|]. by rewrite IH. Qed.

Lemma indexes_alpha3Map ix cs :
  alpha3Map (foldl indexCountry ix cs) =
  foldl (λ m c, <[Country.alpha3 c := c]> m) (alpha3Map ix) cs.
Proof. revert ix. induction cs as [|c cs IH]; intros ix; cbn; [done|]. by rewrite IH. Qed.

Lemma indexes_numericMap ix cs :
  numericMap (foldl indexCountry ix cs) =
  foldl (λ m c, <[Country.numeric c := c]> m) (numericMap ix) cs.
Proof. revert ix. induction cs as [|c cs IH]; intros ix; cbn; [done|]. by rewrite IH. Qed.

(** ** The search *)

Section Search.
Context `{CaseMapping}.

Lemma compareCountries_rankLe query a b :
  compareCountries query a b ≤ 0 ↔ rankLe query a b.
Proof.
  unfold compareCountries, compareEntries, rankLe, matchPosition, nameLength.
  cbn [lowerName].
  destruct (_ =? _) eqn:E; [apply Z.eqb_eq in E|apply Z.eqb_neq in E]; lia.
Qed.

Lemma compareCountries_total query a b :
  0 < compareCountries query a b → compareCountries query b a ≤ 0.
Proof.
  unfold compareCountries, compareEntries. cbn [lowerName].
  rewrite (Z.eqb_sym (indexOf (toLowerCase (Country.name b)) query)).
  destruct (_ =? _); lia.
Qed.

Lemma compareCountries_trans query a b c :
  compareCountries query a b ≤ 0 → compareCountries query b c ≤ 0 →
  compareCountries query a c ≤ 0.
Proof.
  rewrite !compareCountries_rankLe. unfold rankLe. lia.
Qed.

Lemma compareCountries_hasRank query pos len a b :
  hasRank query pos len a = true → hasRank query pos len b = true →
  compareCountries query a b ≤ 0.
Proof.
  unfold hasRank. rewrite !andb_true_iff, !Z.eqb_eq.
  intros [? ?] [? ?]. apply compareCountries_rankLe. unfold rankLe. lia.
Qed.

(** [searchByName] without the detour through the search index. *)
Lemma searchByName_sort_filter countries name :
  name ≠ [] →
  searchByName countries name =
  sort (compareCountries (toLowerCase name))
    (List.filter (matches (toLowerCase name)) countries).
Proof.
  intros Hname. unfold searchByName, searchIndex.
  destruct name as [|u name]; [done|].
  rewrite filter_fmap, sort_fmap, <- list_fmap_compose.
  apply list_fmap_id.
Qed.

Lemma searchByName_perm countries name :
  name ≠ [] →
  searchByName countries name ≡ₚ
  List.filter (matches (toLowerCase name)) countries.
Proof.
  intros Hname. rewrite searchByName_sort_filter by done. apply sort_perm.
Qed.

Lemma searchByName_stable countries name pos len :
  name ≠ [] →
  List.filter (hasRank (toLowerCase name) pos len) (searchByName countries name) =
  List.filter (hasRank (toLowerCase name) pos len)
    (List.filter (matches (toLowerCase name)) countries).
Proof.
  intros Hname. rewrite searchByName_sort_filter by done.
  apply sort_stable. intros a b. apply compareCountries_hasRank.
Qed.

Lemma searchByName_sorted countries name :
  name ≠ [] →
  StronglySorted (rankLe (toLowerCase name)) (searchByName countries name).
Proof.
  intros Hname. rewrite searchByName_sort_filter by done.
  pose proof (sort_sorted (compareCountries (toLowerCase name))
                (compareCountries_total _) (compareCountries_trans _)
                (List.filter (matches (toLowerCase name)) countries)) as Hs.
  induction Hs as [|c l _ IH Hc]; constructor; [done|].
  eapply Forall_impl; [exact Hc|]. intros b. apply compareCountries_rankLe.
Qed.

(** Sorted, stable and a permutation of the matches: these three determine
    the result of [searchByName]. *)
Lemma searchByName_characterised countries name result :
  name ≠ [] →
  result ≡ₚ List.filter (matches (toLowerCase name)) countries →
  StronglySorted (rankLe (toLowerCase name)) result →
  (∀ pos len,
     List.filter (hasRank (toLowerCase name) pos len) result =
     List.filter (hasRank (toLowerCase name) pos len)
       (List.filter (matches (toLowerCase name)) countries)) →
  result = searchByName countries name.
Proof.
  intros Hname Hperm Hsorted Hstable.
  pose (rank := λ c, (matchPosition (toLowerCase name) c, nameLength c)).
  assert (∀ k c, bool_decide (rank c = k) = hasRank (toLowerCase name) k.1 k.2 c)
    as Hrank.
  { intros [pos len] c. unfold rank, hasRank. cbn [fst snd].
    destruct (bool_decide_reflect
                ((matchPosition (toLowerCase name) c, nameLength c) = (pos, len)))
      as [[= -> ->]|Hne].
    - by rewrite !Z.eqb_refl.
    - symmetry. apply not_true_is_false. rewrite andb_true_iff, !Z.eqb_eq.
      intros [? ?]. apply Hne. by f_equal. }
  apply (stable_sort_unique (compareCountries (toLowerCase name)) rank).
  - intros a b. rewrite !compareCountries_rankLe. unfold rankLe, rank.
    intros ? ?. f_equal; lia.
  - intros a b. rewrite compareCountries_rankLe. unfold rankLe, rank.
    intros [= -> ->]. lia.
  - by rewrite searchByName_perm.
  - clear -Hsorted. induction Hsorted as [|c l _ IH Hc]; constructor; [done|].
    eapply Forall_impl; [exact Hc|]. intros b. apply compareCountries_rankLe.
  - pose proof (searchByName_sorted countries name Hname) as Hs.
    clear -Hs. induction Hs as [|c l _ IH Hc]; constructor; [done|].
    eapply Forall_impl; [exact Hc|]. intros b. apply compareCountries_rankLe.
  - intros k. rewrite !(filter_ext _ _ (Hrank k)), Hstable.
    by rewrite searchByName_stable.
Qed.
End Search.

(** For a name of Basic Latin characters the lower-cased name is as long as
    the name itself. *)
Lemma nameLength_ascii `{CaseMapping} (c : Country.t) :
  Forall isAscii (Country.name c) → nameLength c = jsLength (Country.name c).
Proof.
  intros Hc. unfold nameLength, jsLength.
  by rewrite (toLowerCase_ascii _ Hc), length_fmap.
Qed.

(** C1.  For a non-empty query the result of [searchByName] is sorted by
    ascending position of the first occurrence of the lower-cased query in
    the lower-cased name, then by ascending length of that name; and the
    records that tie on both keys appear in the order they have in the
    dataset. *)
Theorem searchByName_ranked `{CaseMapping} (countries : list Country.t) (name : jsstring) :
  name ≠ [] →
  StronglySorted (rankLe (toLowerCase name)) (searchByName countries name) ∧
  ∀ pos len,
    List.filter (hasRank (toLowerCase name) pos len) (searchByName countries name) =
    List.filter (hasRank (toLowerCase name) pos len)
      (List.filter (matches (toLowerCase name)) countries).
Proof.
  intros Hname. split.
  - by apply searchByName_sorted.
  - intros pos len. by apply searchByName_stable.
Qed.

Lemma searchByName_ranked_witness :
  js "an" ≠ [] ∧
  (StronglySorted (rankLe (toLowerCase (js "an"))) (searchByName sample (js "an")) ∧
   ∀ pos len,
     List.filter (hasRank (toLowerCase (js "an")) pos len) (searchByName sample (js "an")) =
     List.filter (hasRank (toLowerCase (js "an")) pos len)
       (List.filter (matches (toLowerCase (js "an"))) sample)).
Proof.
  split; [done|]. apply (searchByName_ranked sample (js "an")). done.
Defined.

(** C2.  [searchByName] of the empty string is empty; for any other query
    the result holds exactly the records of the dataset whose lower-cased
    name contains the lower-cased query as a substring, each as often as the
    dataset has it. *)
Theorem searchByName_exact `{CaseMapping} (countries : list Country.t) (name : jsstring) :
  name ≠ [] →
  searchByName countries [] = [] ∧
  searchByName countries name ≡ₚ List.filter (matches (toLowerCase name)) countries ∧
  ∀ c, c ∈ searchByName countries name ↔
       c ∈ countries ∧ isSubstring (toLowerCase name) (toLowerCase (Country.name c)).
Proof.
  intros Hname. split_and!; [done|by apply searchByName_perm|].
  intros c. rewrite searchByName_perm by done.
  rewrite !list_elem_of_In, filter_In. unfold matches.
  by rewrite includes_substring.
Qed.

Lemma searchByName_exact_witness :
  js "LAND" ≠ [] ∧
  (searchByName sample [] = [] ∧
   searchByName sample (js "LAND") ≡ₚ
     List.filter (matches (toLowerCase (js "LAND"))) sample ∧
   ∀ c, c ∈ searchByName sample (js "LAND") ↔
        c ∈ sample ∧ isSubstring (toLowerCase (js "LAND")) (toLowerCase (Country.name c))).
Proof.
  split; [done|]. apply (searchByName_exact sample (js "LAND")). done.
Defined.

(** ** Exact lookup by name *)

Lemma find_first {A} (P : A → bool) l :
  match List.find P l with
  | Some r => ∃ l1 l2, l = l1 ++ r :: l2 ∧ P r = true ∧ Forall (λ a, P a = false) l1
  | None => Forall (λ a, P a = false) l
  end.
Proof.
  induction l as [|x l IH]; cbn; [constructor|].
  destruct (P x) eqn:Hx.
  - exists [], l. by split_and!.
  - destruct (List.find P l) as [r|].
    + destruct IH as (l1 & l2 & -> & Hr & Hl1).
      exists (x :: l1), l2. split_and!; [done|done|by constructor].
    + by constructor.
Qed.

(** C3.  [getCountryByName] of the empty string is absent; otherwise the
    result is the first record, in dataset order, whose whole name equals
    the input up to case (equal after [toLowerCase]), and it is absent when
    no record has such a name. *)
Theorem getCountryByName_first_exact `{CaseMapping}
    (countries : list Country.t) (name : jsstring) :
  name ≠ [] →
  getCountryByName countries [] = None ∧
  match getCountryByName countries name with
  | Some r =>
      ∃ l1 l2, countries = l1 ++ r :: l2 ∧
        toLowerCase (Country.name r) = toLowerCase name ∧
        Forall (λ c, toLowerCase (Country.name c) ≠ toLowerCase name) l1
  | None =>
      Forall (λ c, toLowerCase (Country.name c) ≠ toLowerCase name) countries
  end.
Proof.
  intros Hname. split; [done|]. unfold getCountryByName.
  destruct name as [|u name]; [done|].
  pose proof (find_first
    (λ country, bool_decide (toLowerCase (Country.name country) = toLowerCase (u :: name)))
    countries) as Hfind.
  destruct (List.find _ countries) as [r|].
  - destruct Hfind as (l1 & l2 & -> & Hr & Hl1). exists l1, l2.
    split_and!; [done|by apply bool_decide_eq_true in Hr|].
    eapply Forall_impl; [exact Hl1|]. intros c Hc. by apply bool_decide_eq_false in Hc.
  - eapply Forall_impl; [exact Hfind|]. intros c Hc. by apply bool_decide_eq_false in Hc.
Qed.

Lemma getCountryByName_first_exact_witness :
  js "TAIWAN" ≠ [] ∧
  (getCountryByName sample [] = None ∧
   match getCountryByName sample (js "TAIWAN") with
   | Some r =>
       ∃ l1 l2, sample = l1 ++ r :: l2 ∧
         toLowerCase (Country.name r) = toLowerCase (js "TAIWAN") ∧
         Forall (λ c, toLowerCase (Country.name c) ≠ toLowerCase (js "TAIWAN")) l1
   | None =>
       Forall (λ c, toLowerCase (Country.name c) ≠ toLowerCase (js "TAIWAN")) sample
   end).
Proof.
  split; [done|]. apply (getCountryByName_first_exact sample (js "TAIWAN")). done.
Defined.

(** ** Lookup by code *)

Lemma asciiLower_ascii s : Forall isAscii s → Forall isAscii (asciiLower <$> s).
Proof.
  intros Hs. apply Forall_fmap. eapply Forall_impl; [exact Hs|].
  intros u. unfold isAscii, asciiLower; cbn. case_match; lia.
Qed.

Lemma asciiUpper_ascii s : Forall isAscii s → Forall isAscii (asciiUpper <$> s).
Proof.
  intros Hs. apply Forall_fmap. eapply Forall_impl; [exact Hs|].
  intros u. unfold isAscii, asciiUpper; cbn. case_match; lia.
Qed.

Lemma asciiUpper_asciiLower u : asciiUpper (asciiLower u) = asciiUpper u.
Proof. unfold asciiUpper, asciiLower. repeat case_match; lia. Qed.

Lemma toUpperCase_toLowerCase_ascii `{CaseMapping} s :
  Forall isAscii s → toUpperCase (toLowerCase s) = toUpperCase s.
Proof.
  intros Hs. rewrite (toLowerCase_ascii s Hs).
  rewrite toUpperCase_ascii by by apply asciiLower_ascii.
  rewrite (toUpperCase_ascii s Hs), <- list_fmap_compose.
  apply list_fmap_ext. intros _ u _. apply asciiUpper_asciiLower.
Qed.

(** C4, as the code has it.  For an input of Basic Latin characters, the
    lookup by alpha-2 code gives the same result on the input and on its
    lower-cased form, and so does the lookup by alpha-3 code; both consult
    their map at the upper-cased input. *)
Theorem getCountryByAlpha_lowercase_ascii `{CaseMapping}
    (countries : list Country.t) (code : jsstring) :
  Forall isAscii code →
  getCountryByAlpha2 countries code = getCountryByAlpha2 countries (toLowerCase code) ∧
  getCountryByAlpha3 countries code = getCountryByAlpha3 countries (toLowerCase code) ∧
  getCountryByAlpha2 countries code = alpha2Map (indexes countries) !! toUpperCase code ∧
  getCountryByAlpha3 countries code = alpha3Map (indexes countries) !! toUpperCase code.
Proof.
  intros Hcode. unfold getCountryByAlpha2, getCountryByAlpha3.
  by rewrite toUpperCase_toLowerCase_ascii.
Qed.

Lemma getCountryByAlpha_lowercase_ascii_witness :
  Forall isAscii (js "Tw") ∧
  (getCountryByAlpha2 sample (js "Tw") = getCountryByAlpha2 sample (toLowerCase (js "Tw")) ∧
   getCountryByAlpha3 sample (js "Tw") = getCountryByAlpha3 sample (toLowerCase (js "Tw")) ∧
   getCountryByAlpha2 sample (js "Tw") = alpha2Map (indexes sample) !! toUpperCase (js "Tw") ∧
   getCountryByAlpha3 sample (js "Tw") = alpha3Map (indexes sample) !! toUpperCase (js "Tw")).
Proof.
  assert (Forall isAscii (js "Tw")) as Hascii
    by (repeat constructor; unfold isAscii; cbn; lia).
  split; [exact Hascii|].
  apply (getCountryByAlpha_lowercase_ascii sample (js "Tw") Hascii).
Defined.

(** C4 does not hold of every string: U+212A KELVIN SIGN has no upper-case
    mapping and lower-cases to the letter k, so the string U+212A "R" finds
    nothing while its lower-cased form "kr" finds the record of "KR". *)
Lemma getCountryByAlpha2_kelvin :
  getCountryByAlpha2 sample [0x212A; 82] = None ∧
  toLowerCase [0x212A; 82] = js "kr" ∧
  Country.name <$> getCountryByAlpha2 sample (toLowerCase [0x212A; 82])
    = Some (js "South Korea") ∧
  getCountryByAlpha2 sample [0x212A; 82]
    ≠ getCountryByAlpha2 sample (toLowerCase [0x212A; 82]).
Proof. split_and!; [by vm_compute..|]. vm_compute. discriminate. Qed.

(** C6.  A code is valid exactly when its lookup finds a record. *)
Theorem isValid_iff_found `{CaseMapping} (countries : list Country.t) (code : jsstring) :
  (isValidAlpha2 countries code = true ↔ getCountryByAlpha2 countries code ≠ None) ∧
  (isValidAlpha3 countries code = true ↔ getCountryByAlpha3 countries code ≠ None).
Proof.
  unfold isValidAlpha2, isValidAlpha3, getCountryByAlpha2, getCountryByAlpha3, mapHas.
  split; destruct (_ !! _); split; done.
Qed.

(** C7.  Each emoji getter returns the [flag] of the record its lookup
    finds, and is absent exactly when the lookup is. *)
Theorem getEmoji_projects_flag `{CaseMapping} (countries : list Country.t) (code : jsstring) :
  getEmojiByAlpha2 countries code =
    match getCountryByAlpha2 countries code with
    | Some r => Some (Country.flag r)
    | None => None
    end ∧
  getEmojiByAlpha3 countries code =
    match getCountryByAlpha3 countries code with
    | Some r => Some (Country.flag r)
    | None => None
    end ∧
  getEmojiByNumeric countries code =
    match getCountryByNumeric countries code with
    | Some r => Some (Country.flag r)
    | None => None
    end.
Proof.
  unfold getEmojiByAlpha2, getEmojiByAlpha3, getEmojiByNumeric.
  unfold getCountryByAlpha2, getCountryByAlpha3, getCountryByNumeric.
  split_and!; by destruct (_ !! _).
Qed.

(** ** Index construction *)

Lemma fill_lookup_lastWith key cs k :
  foldl (λ m c, <[key c := c]> m) (∅ : gmap jsstring Country.t) cs !! k = lastWith key k cs.
Proof.
  unfold lastWith.
  pose proof (find_first (λ c, bool_decide (key c = k)) (reverse cs)) as Hfind.
  destruct (List.find _ (reverse cs)) as [r|].
  - destruct Hfind as (l1 & l2 & Hrev & Hr & Hl1).
    apply bool_decide_eq_true in Hr. subst k.
    assert (cs = reverse l2 ++ r :: reverse l1) as ->.
    { rewrite <- (reverse_involutive cs), Hrev, reverse_app, reverse_cons.
      by rewrite <- app_assoc. }
    apply fill_lookup_last. apply Forall_reverse.
    eapply Forall_impl; [exact Hl1|]. intros c Hc. by apply bool_decide_eq_false in Hc.
  - rewrite fill_lookup_ne; [done|]. apply Forall_reverse.
    eapply Forall_impl; [exact Hfind|]. intros c Hc. by apply bool_decide_eq_false in Hc.
Qed.

(** C9.  Each of the three maps holds, under every key, the last record of
    the dataset with that key (a later record overwrites an earlier one),
    and nothing under a key no record has; the search index has one entry
    per record, in dataset order, made of the record and its lower-cased
    name. *)
Theorem index_construction `{CaseMapping} (countries : list Country.t) :
  (∀ k, alpha2Map (indexes countries) !! k = lastWith Country.alpha2 k countries) ∧
  (∀ k, alpha3Map (indexes countries) !! k = lastWith Country.alpha3 k countries) ∧
  (∀ k, numericMap (indexes countries) !! k = lastWith Country.numeric k countries) ∧
  (∀ k, getCountryByNumeric countries k = lastWith Country.numeric k countries) ∧
  original <$> searchIndex countries = countries ∧
  lowerName <$> searchIndex countries = (λ c, toLowerCase (Country.name c)) <$> countries.
Proof.
  unfold getCountryByNumeric, indexes, searchIndex.
  rewrite indexes_alpha2Map, indexes_alpha3Map, indexes_numericMap.
  split_and!; try (intros k; apply fill_lookup_lastWith).
  - rewrite <- list_fmap_compose. apply list_fmap_id.
  - by rewrite <- list_fmap_compose.
Qed.

(** Two rows with the same alpha-2 code: the later one is found. *)
Example index_last_wins :
  let first := Country.mk (js "First") (js "AA") (js "AAA") (js "001") [] in
  let second := Country.mk (js "Second") (js "AA") (js "AAB") (js "002") [] in
  getCountryByAlpha2 [first; second] (js "aa") = Some second.
Proof. by vm_compute. Qed.

(** C5.  In a dataset whose alpha-2, alpha-3 and numeric codes are each
    unique and whose alpha codes are stored in upper case, every alpha-2
    code of the dataset is found, and the record found is also the one found
    under its own alpha-3 code and under its own numeric code. *)
Theorem indexes_agree `{CaseMapping} (countries : list Country.t) (code : jsstring) :
  NoDup (Country.alpha2 <$> countries) →
  NoDup (Country.alpha3 <$> countries) →
  NoDup (Country.numeric <$> countries) →
  storedUppercase countries →
  code ∈ Country.alpha2 <$> countries →
  ∃ r, getCountryByAlpha2 countries code = Some r ∧
       Country.alpha2 r = code ∧
       getCountryByAlpha3 countries (Country.alpha3 r) = Some r ∧
       getCountryByNumeric countries (Country.numeric r) = Some r.
Proof.
  intros Hnd2 Hnd3 Hndn Hupper Hcode.
  apply list_elem_of_fmap in Hcode as (r & -> & Hr).
  unfold storedUppercase in Hupper.
  rewrite Forall_forall in Hupper. destruct (Hupper r Hr) as [Hup2 Hup3].
  exists r. unfold getCountryByAlpha2, getCountryByAlpha3, getCountryByNumeric, indexes.
  rewrite indexes_alpha2Map, indexes_alpha3Map, indexes_numericMap, Hup2, Hup3.
  split_and!; [|done|..]; by apply fill_lookup_unique.
Qed.

Lemma indexes_agree_witness :
  ∃ r, getCountryByAlpha2 sample (js "TW") = Some r ∧
       Country.alpha2 r = js "TW" ∧
       getCountryByAlpha3 sample (Country.alpha3 r) = Some r ∧
       getCountryByNumeric sample (Country.numeric r) = Some r.
Proof.
  apply (indexes_agree sample (js "TW")).
  - apply (bool_decide_unpack _). by vm_compute.
  - apply (bool_decide_unpack _). by vm_compute.
  - apply (bool_decide_unpack _). by vm_compute.
  - unfold storedUppercase. apply (bool_decide_unpack _). by vm_compute.
  - apply (bool_decide_unpack _). by vm_compute.
Defined.

(** ** Flag derivation *)

Lemma isAsciiLetter_upper u : isAsciiLetter u → 65 ≤ asciiUpper u ≤ 90.
Proof. unfold isAsciiLetter, asciiUpper. case_match; lia. Qed.

Lemma isAsciiLetter_ascii u : isAsciiLetter u → isAscii u.
Proof. unfold isAsciiLetter, isAscii. lia. Qed.

(** The regional indicator of an upper-case letter, as a surrogate pair. *)
Lemma encodeCodePoint_regional u :
  65 ≤ u ≤ 90 → encodeCodePoint (127397 + u) = Some [0xD83C; 0xDDA5 + u].
Proof.
  intros Hu. unfold encodeCodePoint.
  assert (((0 <=? 127397 + u) && (127397 + u <=? 0x10FFFF)) = true) as ->
    by (apply andb_true_iff; split; apply Z.leb_le; lia).
  assert ((127397 + u <=? 0xFFFF) = false) as -> by (apply Z.leb_gt; lia).
  change 0x3FF with (Z.ones 10).
  rewrite Z.shiftr_div_pow2, Z.land_ones by lia.
  change (2 ^ 10) with 1024.
  assert ((127397 + u - 0x10000) `div` 1024 = 60) as ->
    by (symmetry; apply (Z.div_unique _ _ _ (u + 421)); lia).
  assert ((127397 + u - 0x10000) `mod` 1024 = u + 421) as ->
    by (symmetry; apply (Z.mod_unique _ _ 60); lia).
  do 3 f_equal; lia.
Qed.

Lemma codePoints_regional u v :
  65 ≤ u ≤ 90 → 65 ≤ v ≤ 90 →
  codePoints [0xD83C; 0xDDA5 + u; 0xD83C; 0xDDA5 + v] = [127397 + u; 127397 + v].
Proof.
  intros Hu Hv. unfold codePoints.
  assert (∀ w, 65 ≤ w ≤ 90 →
            ((0xD800 <=? 0xD83C) && (0xD83C <=? 0xDBFF) && (0xDC00 <=? 0xDDA5 + w)
              && (0xDDA5 + w <=? 0xDFFF)) = true) as Hpair.
  { intros w Hw. rewrite !andb_true_iff, !Z.leb_le. lia. }
  rewrite (Hpair u Hu), (Hpair v Hv). f_equal; [lia|f_equal; lia].
Qed.

Lemma enrich_flag `{CaseMapping} d c :
  Database.enrich d = Some c →
  getFlagEmoji (Country.alpha2 c) = Some (Country.flag c) ∧
  Country.name c = BaseCountryData.name d ∧
  Country.alpha2 c = BaseCountryData.alpha2 d ∧
  Country.alpha3 c = BaseCountryData.alpha3 d ∧
  Country.numeric c = BaseCountryData.numeric d.
Proof.
  unfold Database.enrich. destruct (getFlagEmoji _) as [flag|] eqn:Hflag; [|done].
  cbn. intros [= <-]. cbn. done.
Qed.

(** [String.fromCodePoint] does not throw on the flag of a Basic Latin code,
    so the database is built for every dataset with such alpha-2 codes. *)
Lemma getFlagEmoji_defined `{CaseMapping} s :
  Forall isAscii s → is_Some (getFlagEmoji s).
Proof.
  intros Hs. unfold getFlagEmoji, fromCodePoint.
  rewrite (toUpperCase_ascii s Hs).
  apply asciiUpper_ascii in Hs.
  assert (is_Some (mapM encodeCodePoint ((λ char, 127397 + char) <$> (asciiUpper <$> s))))
    as [units ->]; [|by eexists].
  apply mapM_is_Some. apply Forall_fmap. eapply Forall_impl; [exact Hs|].
  intros u Hu. unfold isAscii in Hu. unfold encodeCodePoint; cbn.
  assert (((0 <=? 127397 + u) && (127397 + u <=? 0x10FFFF)) = true) as ->
    by (apply andb_true_iff; split; apply Z.leb_le; lia).
  case_match; by eexists.
Qed.

Lemma countries_defined `{CaseMapping} rawCountries :
  Forall (λ d, Forall isAscii (BaseCountryData.alpha2 d)) rawCountries →
  is_Some (Database.countries rawCountries).
Proof.
  intros Hraw. apply mapM_is_Some. eapply Forall_impl; [exact Hraw|].
  intros d Hd. unfold Database.enrich; cbn.
  destruct (getFlagEmoji_defined _ Hd) as [flag ->]. by eexists.
Qed.

(** C8.  For a code of two Basic Latin letters the flag is two code points,
    each 127397 plus the upper-cased letter (as UTF-16, two surrogate
    pairs); and every record of the database carries the flag that
    [getFlagEmoji] derives from its alpha-2 code. *)
Theorem getFlagEmoji_regional_indicators `{CaseMapping} (a b : Z)
    (rawCountries : list BaseCountryData.t) (countries : list Country.t) :
  isAsciiLetter a → isAsciiLetter b →
  Database.countries rawCountries = Some countries →
  (∃ flag, getFlagEmoji [a; b] = Some flag ∧
     codePoints flag = [127397 + asciiUpper a; 127397 + asciiUpper b] ∧
     flag = [0xD83C; 0xDDA5 + asciiUpper a; 0xD83C; 0xDDA5 + asciiUpper b]) ∧
  Forall (λ c, getFlagEmoji (Country.alpha2 c) = Some (Country.flag c)) countries.
Proof.
  intros Ha Hb Hdb. split.
  - pose proof (isAsciiLetter_upper a Ha) as Hua.
    pose proof (isAsciiLetter_upper b Hb) as Hub.
    eexists. split_and!; [|by apply codePoints_regional|reflexivity].
    unfold getFlagEmoji, fromCodePoint.
    rewrite toUpperCase_ascii
      by (repeat constructor; by apply isAsciiLetter_ascii).
    cbn [fmap list_fmap mapM]. cbn.
    rewrite !encodeCodePoint_regional by done. done.
  - apply mapM_Some in Hdb.
    induction Hdb as [|d c raw cs Hdc _ IH]; constructor; [|done].
    by apply enrich_flag in Hdc as [? _].
Qed.

Lemma getFlagEmoji_regional_indicators_witness :
  (∃ flag, getFlagEmoji [116; 119] = Some flag ∧
     codePoints flag = [127397 + asciiUpper 116; 127397 + asciiUpper 119] ∧
     flag = [0xD83C; 0xDDA5 + asciiUpper 116; 0xD83C; 0xDDA5 + asciiUpper 119]) ∧
  Forall (λ c, getFlagEmoji (Country.alpha2 c) = Some (Country.flag c)) sample.
Proof.
  apply (getFlagEmoji_regional_indicators 116 119 sampleRows sample).
  - unfold isAsciiLetter. lia.
  - unfold isAsciiLetter. lia.
  - by vm_compute.
Defined.

(** ** Exact name and search *)

(** A name equals the query after lower-casing exactly when the query
    occurs in it at position 0 and it is no longer than the query. *)
Lemma exact_match_rank `{CaseMapping} (q : jsstring) (c : Country.t) :
  bool_decide (toLowerCase (Country.name c) = q) =
  hasRank q 0 (jsLength q) c && matches q c.
Proof.
  unfold hasRank, matches, matchPosition, nameLength, jsLength.
  generalize (toLowerCase (Country.name c)); intros s.
  destruct (bool_decide_reflect (s = q)) as [->|Hne].
  - rewrite (indexOf_startsWith q q (startsWith_refl q)), !Z.eqb_refl.
    by rewrite startsWith_includes by apply startsWith_refl.
  - symmetry. apply not_true_is_false.
    rewrite !andb_true_iff, !Z.eqb_eq. intros [[Hpos Hlen] Hinc].
    apply Hne, startsWith_same_length; [by apply indexOf_zero|lia].
Qed.

Lemma getCountryByName_heads_search `{CaseMapping}
    (countries : list Country.t) (name : jsstring) (r : Country.t) :
  getCountryByName countries name = Some r →
  head (searchByName countries name) = Some r.
Proof.
  intros Hget. destruct name as [|u name]; [done|].
  remember (u :: name) as nm eqn:Hnm.
  assert (nm ≠ []) as Hne by (by subst nm).
  assert (List.find (hasRank (toLowerCase nm) 0 (jsLength (toLowerCase nm)))
            (searchByName countries nm) = Some r) as Hfind.
  { rewrite find_head_filter, searchByName_stable, filter_filter by done.
    rewrite <- find_head_filter, <- Hget. unfold getCountryByName. subst nm.
    rewrite !find_head_filter. f_equal. apply filter_ext.
    intros c. symmetry. apply exact_match_rank. }
  pose proof (searchByName_sorted countries nm Hne) as Hsorted.
  assert (Forall (λ c, matches (toLowerCase nm) c = true) (searchByName countries nm))
    as Hmatch.
  { rewrite searchByName_perm by done. apply Forall_forall.
    intros c Hc. apply list_elem_of_In, filter_In in Hc. tauto. }
  destruct (searchByName countries nm) as [|h t]; [done|].
  cbn [head]. cbn [List.find] in Hfind.
  destruct (hasRank (toLowerCase nm) 0 (jsLength (toLowerCase nm)) h) eqn:Hh; [done|].
  exfalso. apply find_some in Hfind as [Hin Hr].
  apply StronglySorted_inv in Hsorted as [_ Hle].
  rewrite Forall_forall in Hle. apply list_elem_of_In, Hle in Hin.
  apply Forall_inv in Hmatch.
  apply not_true_iff_false in Hh. apply Hh. clear Hh.
  revert Hr Hin Hmatch. unfold hasRank, rankLe, matches, matchPosition, nameLength, jsLength.
  generalize (toLowerCase (Country.name h)) (toLowerCase (Country.name r)) (toLowerCase nm).
  intros s s' q. rewrite !andb_true_iff, !Z.eqb_eq. intros [Hpos Hlen] Hle' Hinc.
  pose proof (indexOf_nonneg s q Hinc) as Hnn.
  assert (indexOf s q = 0) as Hz by lia.
  pose proof (startsWith_length s q (indexOf_zero s q Hinc Hz)). lia.
Qed.

(** C10.  When [getCountryByName] finds a record for a non-empty name, the
    search for that name is non-empty and starts with that record.  (The
    uniqueness of names is not used: among records with the same lower-cased
    name both functions take the first in dataset order.) *)
Theorem exact_name_ranks_first `{CaseMapping}
    (countries : list Country.t) (name : jsstring) (r : Country.t) :
  name ≠ [] →
  NoDup (Country.name <$> countries) →
  getCountryByName countries name = Some r →
  searchByName countries name ≠ [] ∧
  head (searchByName countries name) = Some r ∧
  matchPosition (toLowerCase name) r = 0 ∧
  Forall (λ c, nameLength r ≤ nameLength c) (searchByName countries name).
Proof.
  intros Hname _ Hget.
  pose proof (getCountryByName_heads_search countries name r Hget) as Hhead.
  assert (toLowerCase (Country.name r) = toLowerCase name) as Hr.
  { unfold getCountryByName in Hget. destruct name; [done|].
    apply find_some in Hget as [_ Hr]. by apply bool_decide_eq_true in Hr. }
  split_and!; [by destruct (searchByName countries name)|done|..].
  - unfold matchPosition. rewrite Hr. apply indexOf_startsWith, startsWith_refl.
  - rewrite searchByName_perm by done. apply Forall_forall.
    intros c Hc. apply list_elem_of_In, filter_In in Hc as [_ Hc].
    unfold matches in Hc. apply includes_substring in Hc as (l1 & l2 & Hc).
    unfold nameLength, jsLength. rewrite Hr, Hc, !length_app. lia.
Qed.

Lemma exact_name_ranks_first_witness :
  searchByName sample (js "japan") ≠ [] ∧
  head (searchByName sample (js "japan")) = Some japan ∧
  matchPosition (toLowerCase (js "japan")) japan = 0 ∧
  Forall (λ c, nameLength japan ≤ nameLength c) (searchByName sample (js "japan")).
Proof.
  apply (exact_name_ranks_first sample (js "japan") japan).
  - done.
  - apply (bool_decide_unpack _). by vm_compute.
  - by vm_compute.
Defined.

(** ** The scenarios of the specification, evaluated *)

Example sample_database : Database.countries sampleRows = Some sample.
Proof. by vm_compute. Qed.

Example scenario_alpha2_TW : getCountryByAlpha2 sample (js "TW") = Some taiwan.
Proof. by vm_compute. Qed.

Example scenario_alpha3_usa : getCountryByAlpha3 sample (js "usa") = Some unitedStates.
Proof. by vm_compute. Qed.

Example scenario_search_land : poland ∈ searchByName sample (js "land").
Proof. vm_compute. by left. Qed.

Example scenario_search_an :
  searchByName sample (js "an") = [japan; poland; taiwan].
Proof. by vm_compute. Qed.

Example scenario_search_Atlantis : searchByName sample (js "Atlantis") = [].
Proof. by vm_compute. Qed.

Example scenario_isValidAlpha3_XXY : isValidAlpha3 sample (js "XXY") = false.
Proof. by vm_compute. Qed.

Example scenario_name_case :
  getCountryByName sample (js "Taiwan") = Some taiwan ∧
  getCountryByName sample (js "TAIWAN") = Some taiwan ∧
  getCountryByName sample (js "Taiw") = None.
Proof. by vm_compute. Qed.

Example scenario_emoji_ZZ : getEmojiByAlpha2 sample (js "ZZ") = None.
Proof. by vm_compute. Qed.

(** * Further properties of the lookups *)

(** ** What a filled map holds *)

Lemma NoDup_fmap_eq {A B} (f : A → B) (l : list A) x y :
  NoDup (f <$> l) → x ∈ l → y ∈ l → f x = f y → x = y.
Proof.
  induction l as [|a l IH]; intros Hnd Hx Hy Hf; [by apply elem_of_nil in Hx|].
  rewrite fmap_cons in Hnd. apply NoDup_cons in Hnd as [Ha Hnd].
  apply elem_of_cons in Hx as [->|Hx]; apply elem_of_cons in Hy as [->|Hy].
  - done.
  - destruct Ha. rewrite Hf. by apply list_elem_of_fmap_2.
  - destruct Ha. rewrite <- Hf. by apply list_elem_of_fmap_2.
  - by apply IH.
Qed.

Lemma fill_dom (key : Country.t → jsstring) (m : gmap jsstring Country.t) cs :
  dom (foldl (λ m c, <[key c := c]> m) m cs) = dom m ∪ list_to_set (key <$> cs).
Proof.
  revert m. induction cs as [|c cs IH]; intros m; cbn.
  - by rewrite (right_id_L ∅ (∪)).
  - rewrite IH, dom_insert_L, (comm_L (∪) {[key c]} (dom m)).
    by rewrite <- (assoc_L (∪)).
Qed.

Lemma fill_lookup_sound (key : Country.t → jsstring) cs k r :
  foldl (λ m c, <[key c := c]> m) (∅ : gmap jsstring Country.t) cs !! k = Some r →
  r ∈ cs ∧ key r = k.
Proof.
  intros Hr. apply fill_lookup_Some in Hr as [Hr|Hr]; [done|].
  by rewrite lookup_empty in Hr.
Qed.

Lemma fill_lookup_None (key : Country.t → jsstring) cs k :
  foldl (λ m c, <[key c := c]> m) (∅ : gmap jsstring Country.t) cs !! k = None ↔
  k ∉ key <$> cs.
Proof.
  rewrite <- not_elem_of_dom, fill_dom, dom_empty_L, (left_id_L ∅ (∪)).
  by rewrite elem_of_list_to_set.
Qed.

Lemma fill_lookup_perm (key : Country.t → jsstring) cs cs' k :
  NoDup (key <$> cs) → cs ≡ₚ cs' →
  foldl (λ m c, <[key c := c]> m) (∅ : gmap jsstring Country.t) cs !! k =
  foldl (λ m c, <[key c := c]> m) (∅ : gmap jsstring Country.t) cs' !! k.
Proof.
  intros Hnd Hperm.
  assert (NoDup (key <$> cs')) as Hnd' by by rewrite <- Hperm.
  destruct (foldl _ ∅ cs !! k) as [r|] eqn:Hk.
  - apply fill_lookup_sound in Hk as [Hr <-]. symmetry.
    apply fill_lookup_unique; [done|]. by rewrite <- Hperm.
  - symmetry. apply fill_lookup_None. rewrite <- Hperm. by apply fill_lookup_None.
Qed.

Lemma size_list_to_set_le (l : list jsstring) :
  (size (list_to_set l : gset jsstring) ≤ length l)%nat.
Proof.
  induction l as [|x l IH]; cbn; [by rewrite size_empty|].
  rewrite size_union_alt, size_singleton.
  pose proof (subseteq_size (list_to_set l ∖ {[x]}) (list_to_set l : gset jsstring)
                (subseteq_difference_l _ _ _ (reflexivity _))).
  lia.
Qed.

Lemma size_list_to_set_NoDup (l : list jsstring) :
  size (list_to_set l : gset jsstring) = length l ↔ NoDup l.
Proof.
  split; [|apply size_list_to_set].
  induction l as [|x l IH]; cbn; [constructor|].
  intros Hsize. destruct (decide (x ∈ l)) as [Hin|Hnotin].
  - exfalso. pose proof (size_list_to_set_le l).
    assert ({[x]} ∪ list_to_set l = (list_to_set l : gset jsstring)) as Heq.
    { apply subseteq_union_1_L, singleton_subseteq_l, elem_of_list_to_set, Hin. }
    rewrite Heq in Hsize. lia.
  - constructor; [done|]. apply IH.
    rewrite size_union, size_singleton in Hsize; [lia|].
    apply disjoint_singleton_l. by rewrite elem_of_list_to_set.
Qed.

(** ASCII case conversions compose as expected. *)
Lemma asciiLower_asciiUpper u : asciiLower (asciiUpper u) = asciiLower u.
Proof. unfold asciiUpper, asciiLower. repeat case_match; lia. Qed.

Lemma asciiUpper_idemp u : asciiUpper (asciiUpper u) = asciiUpper u.
Proof. unfold asciiUpper. repeat case_match; lia. Qed.

Lemma asciiLower_idemp u : asciiLower (asciiLower u) = asciiLower u.
Proof. unfold asciiLower. repeat case_match; lia. Qed.

Lemma toLowerCase_toUpperCase_ascii `{CaseMapping} s :
  Forall isAscii s → toLowerCase (toUpperCase s) = toLowerCase s.
Proof.
  intros Hs. rewrite (toUpperCase_ascii s Hs).
  rewrite toLowerCase_ascii by by apply asciiUpper_ascii.
  rewrite (toLowerCase_ascii s Hs), <- list_fmap_compose.
  apply list_fmap_ext. intros _ u _. apply asciiLower_asciiUpper.
Qed.

Lemma toUpperCase_idemp_ascii `{CaseMapping} s :
  Forall isAscii s → toUpperCase (toUpperCase s) = toUpperCase s.
Proof.
  intros Hs. rewrite (toUpperCase_ascii s Hs).
  rewrite toUpperCase_ascii by by apply asciiUpper_ascii.
  rewrite <- list_fmap_compose.
  apply list_fmap_ext. intros _ u _. apply asciiUpper_idemp.
Qed.

Lemma toLowerCase_idemp_ascii `{CaseMapping} s :
  Forall isAscii s → toLowerCase (toLowerCase s) = toLowerCase s.
Proof.
  intros Hs. rewrite (toLowerCase_ascii s Hs).
  rewrite toLowerCase_ascii by by apply asciiLower_ascii.
  rewrite <- list_fmap_compose.
  apply list_fmap_ext. intros _ u _. apply asciiLower_idemp.
Qed.

(** Literals of Basic Latin characters are recognised by evaluation. *)
Ltac ascii_literal := repeat constructor; unfold isAscii; cbn; lia.

(** X1.  A lookup by alpha-2 or alpha-3 code returns only a record of the
    dataset whose code is the upper-cased input, and it is absent exactly
    when no record has that code. *)
Theorem getCountryByAlpha_sound_complete `{CaseMapping}
    (countries : list Country.t) (code : jsstring) :
  (∀ r, getCountryByAlpha2 countries code = Some r →
        r ∈ countries ∧ Country.alpha2 r = toUpperCase code) ∧
  (getCountryByAlpha2 countries code = None ↔
     toUpperCase code ∉ Country.alpha2 <$> countries) ∧
  (∀ r, getCountryByAlpha3 countries code = Some r →
        r ∈ countries ∧ Country.alpha3 r = toUpperCase code) ∧
  (getCountryByAlpha3 countries code = None ↔
     toUpperCase code ∉ Country.alpha3 <$> countries).
Proof.
  unfold getCountryByAlpha2, getCountryByAlpha3, indexes.
  rewrite indexes_alpha2Map, indexes_alpha3Map.
  split_and!; first [intros r; apply fill_lookup_sound | apply fill_lookup_None].
Qed.

(** X2.  The lookup by numeric code compares the code as given, with no
    normalisation: a record found has exactly that numeric code, and the
    lookup is absent exactly when no record has it.  The emoji getter by
    numeric code then returns the flag of such a record. *)
Theorem getCountryByNumeric_exact
    (countries : list Country.t) (code : jsstring) :
  (∀ r, getCountryByNumeric countries code = Some r →
        r ∈ countries ∧ Country.numeric r = code) ∧
  (getCountryByNumeric countries code = None ↔
     code ∉ Country.numeric <$> countries) ∧
  (∀ flag, getEmojiByNumeric countries code = Some flag →
     ∃ r, r ∈ countries ∧ Country.numeric r = code ∧ Country.flag r = flag).
Proof.
  unfold getEmojiByNumeric, getCountryByNumeric, indexes.
  rewrite indexes_numericMap.
  split_and!; [intros r; apply fill_lookup_sound|apply fill_lookup_None|].
  intros flag Hflag. apply fmap_Some in Hflag as (r & Hr & ->).
  apply fill_lookup_sound in Hr as [? ?]. eauto.
Qed.

(** X3.  A code is valid exactly when its upper-cased form is the alpha-2
    (alpha-3) code of some record of the dataset. *)
Theorem isValid_iff_member `{CaseMapping} (countries : list Country.t) (code : jsstring) :
  (isValidAlpha2 countries code = true ↔
     toUpperCase code ∈ Country.alpha2 <$> countries) ∧
  (isValidAlpha3 countries code = true ↔
     toUpperCase code ∈ Country.alpha3 <$> countries).
Proof.
  unfold isValidAlpha2, isValidAlpha3, mapHas, indexes.
  rewrite indexes_alpha2Map, indexes_alpha3Map.
  split.
  - destruct (foldl _ _ _ !! _) as [r|] eqn:Hk.
    + apply fill_lookup_sound in Hk as [Hr <-].
      split; [intros _; by apply list_elem_of_fmap_2|done].
    + apply fill_lookup_None in Hk. split; [done|intros Hin; by destruct Hk].
  - destruct (foldl _ _ _ !! _) as [r|] eqn:Hk.
    + apply fill_lookup_sound in Hk as [Hr <-].
      split; [intros _; by apply list_elem_of_fmap_2|done].
    + apply fill_lookup_None in Hk. split; [done|intros Hin; by destruct Hk].
Qed.

(** X4.  On a code of Basic Latin characters the validators and the emoji
    getters by alpha code do not depend on the case the code is typed in:
    the lower-cased and the upper-cased code give the same answer as the
    code itself. *)
Theorem alpha_api_case_insensitive `{CaseMapping}
    (countries : list Country.t) (code : jsstring) :
  Forall isAscii code →
  isValidAlpha2 countries (toLowerCase code) = isValidAlpha2 countries code ∧
  isValidAlpha2 countries (toUpperCase code) = isValidAlpha2 countries code ∧
  isValidAlpha3 countries (toLowerCase code) = isValidAlpha3 countries code ∧
  isValidAlpha3 countries (toUpperCase code) = isValidAlpha3 countries code ∧
  getEmojiByAlpha2 countries (toLowerCase code) = getEmojiByAlpha2 countries code ∧
  getEmojiByAlpha2 countries (toUpperCase code) = getEmojiByAlpha2 countries code ∧
  getEmojiByAlpha3 countries (toLowerCase code) = getEmojiByAlpha3 countries code ∧
  getEmojiByAlpha3 countries (toUpperCase code) = getEmojiByAlpha3 countries code.
Proof.
  intros Hcode.
  unfold isValidAlpha2, isValidAlpha3, getEmojiByAlpha2, getEmojiByAlpha3,
    getCountryByAlpha2, getCountryByAlpha3.
  by rewrite toUpperCase_toLowerCase_ascii, toUpperCase_idemp_ascii.
Qed.

Lemma alpha_api_case_insensitive_witness :
  isValidAlpha2 sample (toLowerCase (js "Us")) = isValidAlpha2 sample (js "Us") ∧
  isValidAlpha2 sample (toUpperCase (js "Us")) = isValidAlpha2 sample (js "Us") ∧
  isValidAlpha3 sample (toLowerCase (js "Us")) = isValidAlpha3 sample (js "Us") ∧
  isValidAlpha3 sample (toUpperCase (js "Us")) = isValidAlpha3 sample (js "Us") ∧
  getEmojiByAlpha2 sample (toLowerCase (js "Us")) = getEmojiByAlpha2 sample (js "Us") ∧
  getEmojiByAlpha2 sample (toUpperCase (js "Us")) = getEmojiByAlpha2 sample (js "Us") ∧
  getEmojiByAlpha3 sample (toLowerCase (js "Us")) = getEmojiByAlpha3 sample (js "Us") ∧
  getEmojiByAlpha3 sample (toUpperCase (js "Us")) = getEmojiByAlpha3 sample (js "Us").
Proof.
  apply (alpha_api_case_insensitive sample (js "Us")). ascii_literal.
Defined.

(** X5.  When every alpha-2 code of the dataset has two characters and
    every alpha-3 code three, a code of Basic Latin characters of any other
    length is found by neither lookup, is not valid and has no emoji. *)
Theorem wrong_length_never_matches `{CaseMapping}
    (countries : list Country.t) (code : jsstring) :
  Forall (λ c, length (Country.alpha2 c) = 2%nat ∧
               length (Country.alpha3 c) = 3%nat) countries →
  Forall isAscii code →
  length code ≠ 2%nat → length code ≠ 3%nat →
  getCountryByAlpha2 countries code = None ∧
  getCountryByAlpha3 countries code = None ∧
  isValidAlpha2 countries code = false ∧
  isValidAlpha3 countries code = false ∧
  getEmojiByAlpha2 countries code = None ∧
  getEmojiByAlpha3 countries code = None.
Proof.
  intros Hlen Hcode Hn2 Hn3. rewrite Forall_forall in Hlen.
  assert (length (toUpperCase code) = length code) as Hup
    by by rewrite (toUpperCase_ascii _ Hcode), length_fmap.
  unfold isValidAlpha2, isValidAlpha3, mapHas, getEmojiByAlpha2, getEmojiByAlpha3.
  unfold getCountryByAlpha2, getCountryByAlpha3, indexes.
  rewrite indexes_alpha2Map, indexes_alpha3Map.
  assert (foldl (λ m c, <[Country.alpha2 c := c]> m) (alpha2Map emptyIndexes)
            countries !! toUpperCase code = None) as ->.
  { apply fill_lookup_None. intros Hin.
    apply list_elem_of_fmap in Hin as (c & Hc & Hin).
    destruct (Hlen c Hin) as [H2 _]. rewrite <- Hc in H2. lia. }
  assert (foldl (λ m c, <[Country.alpha3 c := c]> m) (alpha3Map emptyIndexes)
            countries !! toUpperCase code = None) as ->.
  { apply fill_lookup_None. intros Hin.
    apply list_elem_of_fmap in Hin as (c & Hc & Hin).
    destruct (Hlen c Hin) as [_ H3]. rewrite <- Hc in H3. lia. }
  done.
Qed.

Lemma wrong_length_never_matches_witness :
  getCountryByAlpha2 sample (js "TAIW") = None ∧
  getCountryByAlpha3 sample (js "TAIW") = None ∧
  isValidAlpha2 sample (js "TAIW") = false ∧
  isValidAlpha3 sample (js "TAIW") = false ∧
  getEmojiByAlpha2 sample (js "TAIW") = None ∧
  getEmojiByAlpha3 sample (js "TAIW") = None.
Proof.
  apply (wrong_length_never_matches sample (js "TAIW")).
  - repeat constructor.
  - ascii_literal.
  - cbn. lia.
  - cbn. lia.
Defined.

(** X6.  The keys of each map are exactly the corresponding codes of the
    dataset, and no map holds more entries than the dataset has records. *)
Theorem indexes_keys (countries : list Country.t) :
  dom (alpha2Map (indexes countries)) = list_to_set (Country.alpha2 <$> countries) ∧
  dom (alpha3Map (indexes countries)) = list_to_set (Country.alpha3 <$> countries) ∧
  dom (numericMap (indexes countries)) = list_to_set (Country.numeric <$> countries) ∧
  (size (alpha2Map (indexes countries)) ≤ length countries)%nat ∧
  (size (alpha3Map (indexes countries)) ≤ length countries)%nat ∧
  (size (numericMap (indexes countries)) ≤ length countries)%nat.
Proof.
  unfold indexes. rewrite indexes_alpha2Map, indexes_alpha3Map, indexes_numericMap.
  rewrite <- !size_dom, !fill_dom. cbn [alpha2Map alpha3Map numericMap emptyIndexes].
  rewrite dom_empty_L, !(left_id_L ∅ (∪)).
  split_and!; try done.
  - rewrite <- (length_fmap Country.alpha2). apply size_list_to_set_le.
  - rewrite <- (length_fmap Country.alpha3). apply size_list_to_set_le.
  - rewrite <- (length_fmap Country.numeric). apply size_list_to_set_le.
Qed.

(** X7.  A map has as many entries as the dataset has records exactly when
    its key is unique across the dataset: a record is overwritten if and
    only if a code repeats. *)
Theorem indexes_size_unique (countries : list Country.t) :
  (size (alpha2Map (indexes countries)) = length countries ↔
     NoDup (Country.alpha2 <$> countries)) ∧
  (size (alpha3Map (indexes countries)) = length countries ↔
     NoDup (Country.alpha3 <$> countries)) ∧
  (size (numericMap (indexes countries)) = length countries ↔
     NoDup (Country.numeric <$> countries)).
Proof.
  unfold indexes. rewrite indexes_alpha2Map, indexes_alpha3Map, indexes_numericMap.
  rewrite <- !size_dom, !fill_dom. cbn [alpha2Map alpha3Map numericMap emptyIndexes].
  rewrite dom_empty_L, !(left_id_L ∅ (∪)).
  rewrite <- (length_fmap Country.alpha2 countries) at 1.
  rewrite <- (length_fmap Country.alpha3 countries) at 1.
  rewrite <- (length_fmap Country.numeric countries) at 1.
  split_and!; apply size_list_to_set_NoDup.
Qed.

(** X8.  In a dataset whose three codes are each unique and whose alpha
    codes are stored in upper case, a record found by its alpha-3 code or by
    its numeric code is also the one found under each of its other codes. *)
Theorem indexes_agree_from_any `{CaseMapping}
    (countries : list Country.t) (code : jsstring) (r : Country.t) :
  NoDup (Country.alpha2 <$> countries) →
  NoDup (Country.alpha3 <$> countries) →
  NoDup (Country.numeric <$> countries) →
  storedUppercase countries →
  getCountryByAlpha3 countries code = Some r ∨
    getCountryByNumeric countries code = Some r →
  getCountryByAlpha2 countries (Country.alpha2 r) = Some r ∧
  getCountryByAlpha3 countries (Country.alpha3 r) = Some r ∧
  getCountryByNumeric countries (Country.numeric r) = Some r.
Proof.
  intros Hnd2 Hnd3 Hndn Hupper Hfound.
  assert (r ∈ countries) as Hr.
  { revert Hfound. unfold getCountryByAlpha3, getCountryByNumeric, indexes.
    rewrite indexes_alpha3Map, indexes_numericMap.
    intros [Hk|Hk]; by apply fill_lookup_sound in Hk as [? _]. }
  unfold storedUppercase in Hupper.
  rewrite Forall_forall in Hupper. destruct (Hupper r Hr) as [Hup2 Hup3].
  unfold getCountryByAlpha2, getCountryByAlpha3, getCountryByNumeric, indexes.
  rewrite indexes_alpha2Map, indexes_alpha3Map, indexes_numericMap, Hup2, Hup3.
  split_and!; by apply fill_lookup_unique.
Qed.

Lemma indexes_agree_from_any_witness :
  getCountryByAlpha2 sample (Country.alpha2 poland) = Some poland ∧
  getCountryByAlpha3 sample (Country.alpha3 poland) = Some poland ∧
  getCountryByNumeric sample (Country.numeric poland) = Some poland.
Proof.
  apply (indexes_agree_from_any sample (js "616") poland).
  - apply (bool_decide_unpack _). by vm_compute.
  - apply (bool_decide_unpack _). by vm_compute.
  - apply (bool_decide_unpack _). by vm_compute.
  - unfold storedUppercase. apply (bool_decide_unpack _). by vm_compute.
  - right. by vm_compute.
Defined.

(** X9.  When the three codes are each unique, the lookups do not depend on
    the order of the records: a rearranged dataset answers every lookup by
    code in the same way. *)
Theorem lookups_order_independent `{CaseMapping}
    (countries countries' : list Country.t) (code : jsstring) :
  NoDup (Country.alpha2 <$> countries) →
  NoDup (Country.alpha3 <$> countries) →
  NoDup (Country.numeric <$> countries) →
  countries ≡ₚ countries' →
  getCountryByAlpha2 countries code = getCountryByAlpha2 countries' code ∧
  getCountryByAlpha3 countries code = getCountryByAlpha3 countries' code ∧
  getCountryByNumeric countries code = getCountryByNumeric countries' code ∧
  isValidAlpha2 countries code = isValidAlpha2 countries' code ∧
  isValidAlpha3 countries code = isValidAlpha3 countries' code.
Proof.
  intros Hnd2 Hnd3 Hndn Hperm.
  unfold isValidAlpha2, isValidAlpha3, mapHas.
  unfold getCountryByAlpha2, getCountryByAlpha3, getCountryByNumeric, indexes.
  rewrite !indexes_alpha2Map, !indexes_alpha3Map, !indexes_numericMap.
  cbn [alpha2Map alpha3Map numericMap emptyIndexes].
  rewrite (fill_lookup_perm Country.alpha2 countries countries') by done.
  rewrite (fill_lookup_perm Country.alpha3 countries countries') by done.
  rewrite (fill_lookup_perm Country.numeric countries countries') by done.
  done.
Qed.

Lemma lookups_order_independent_witness :
  getCountryByAlpha2 sample (js "pl") = getCountryByAlpha2 (reverse sample) (js "pl") ∧
  getCountryByAlpha3 sample (js "pl") = getCountryByAlpha3 (reverse sample) (js "pl") ∧
  getCountryByNumeric sample (js "pl") = getCountryByNumeric (reverse sample) (js "pl") ∧
  isValidAlpha2 sample (js "pl") = isValidAlpha2 (reverse sample) (js "pl") ∧
  isValidAlpha3 sample (js "pl") = isValidAlpha3 (reverse sample) (js "pl").
Proof.
  apply (lookups_order_independent sample (reverse sample) (js "pl")).
  - apply (bool_decide_unpack _). by vm_compute.
  - apply (bool_decide_unpack _). by vm_compute.
  - apply (bool_decide_unpack _). by vm_compute.
  - symmetry. apply reverse_Permutation.
Defined.

(** * Further properties of the flag derivation and the database *)

Lemma encodeCodePoint_ascii u :
  isAscii u → encodeCodePoint (127397 + u) = Some [0xD83C; 0xDDA5 + u].
Proof.
  unfold isAscii. intros Hu. unfold encodeCodePoint.
  assert (((0 <=? 127397 + u) && (127397 + u <=? 0x10FFFF)) = true) as ->
    by (apply andb_true_iff; split; apply Z.leb_le; lia).
  assert ((127397 + u <=? 0xFFFF) = false) as -> by (apply Z.leb_gt; lia).
  change 0x3FF with (Z.ones 10).
  rewrite Z.shiftr_div_pow2, Z.land_ones by lia.
  change (2 ^ 10) with 1024.
  assert ((127397 + u - 0x10000) `div` 1024 = 60) as ->
    by (symmetry; apply (Z.div_unique _ _ _ (u + 421)); lia).
  assert ((127397 + u - 0x10000) `mod` 1024 = u + 421) as ->
    by (symmetry; apply (Z.mod_unique _ _ 60); lia).
  do 3 f_equal; lia.
Qed.

Lemma fromCodePoint_ascii l :
  Forall isAscii l →
  fromCodePoint ((λ char, 127397 + char) <$> l) =
  Some (concat ((λ u, [0xD83C; 0xDDA5 + u]) <$> l)).
Proof.
  unfold fromCodePoint. intros Hl.
  assert (mapM encodeCodePoint ((λ char, 127397 + char) <$> l) =
          Some ((λ u, [0xD83C; 0xDDA5 + u]) <$> l)) as ->; [|done].
  apply mapM_Some. apply Forall2_fmap. 
  induction Hl as [|u l Hu _ IH]; constructor; [|done].
  by apply encodeCodePoint_ascii.
Qed.

Lemma codePoints_pair hi lo s :
  codePoints (hi :: lo :: s) =
  if (0xD800 <=? hi) && (hi <=? 0xDBFF) && (0xDC00 <=? lo) && (lo <=? 0xDFFF)
  then (0x10000 + (hi - 0xD800) * 1024 + (lo - 0xDC00)) :: codePoints s
  else hi :: codePoints (lo :: s).
Proof. reflexivity. Qed.

Lemma codePoints_ascii_flags l :
  Forall isAscii l →
  codePoints (concat ((λ u, [0xD83C; 0xDDA5 + u]) <$> l)) =
  (λ char, 127397 + char) <$> l.
Proof.
  induction 1 as [|u l Hu _ IH]; [done|].
  cbn [fmap list_fmap concat app]. rewrite codePoints_pair, IH.
  unfold isAscii in Hu.
  assert (((0xD800 <=? 0xD83C) && (0xD83C <=? 0xDBFF) && (0xDC00 <=? 0xDDA5 + u)
           && (0xDDA5 + u <=? 0xDFFF)) = true) as ->
    by (rewrite !andb_true_iff, !Z.leb_le; lia).
  cbn [fmap list_fmap]. f_equal. lia.
Qed.

Lemma length_ascii_flags (l : jsstring) :
  length (concat ((λ u, [0xD83C; 0xDDA5 + u]) <$> l)) = (2 * length l)%nat.
Proof. induction l as [|u l IH]; cbn in *; lia. Qed.

Lemma getFlagEmoji_ascii_units `{CaseMapping} s :
  Forall isAscii s →
  getFlagEmoji s = Some (concat ((λ u, [0xD83C; 0xDDA5 + u]) <$> (asciiUpper <$> s))).
Proof.
  intros Hs. unfold getFlagEmoji. rewrite (toUpperCase_ascii s Hs).
  apply fromCodePoint_ascii. by apply asciiUpper_ascii.
Qed.

(** X10.  On a string of Basic Latin characters of any length (the empty
    string included) [getFlagEmoji] does not throw; the result has one code
    point per character, 127397 plus the upper-cased character, and so two
    UTF-16 code units per character. *)
Theorem getFlagEmoji_ascii `{CaseMapping} (s : jsstring) :
  Forall isAscii s →
  ∃ flag, getFlagEmoji s = Some flag ∧
    codePoints flag = (λ u, 127397 + asciiUpper u) <$> s ∧
    length flag = (2 * length s)%nat.
Proof.
  intros Hs. eexists. split; [by apply getFlagEmoji_ascii_units|].
  split.
  - rewrite codePoints_ascii_flags by by apply asciiUpper_ascii.
    by rewrite <- list_fmap_compose.
  - by rewrite length_ascii_flags, length_fmap.
Qed.

Lemma getFlagEmoji_ascii_witness :
  ∃ flag, getFlagEmoji (js "twn") = Some flag ∧
    codePoints flag = (λ u, 127397 + asciiUpper u) <$> js "twn" ∧
    length flag = (2 * length (js "twn"))%nat.
Proof. apply (getFlagEmoji_ascii (js "twn")). ascii_literal. Defined.

(** X11.  The flag of a code of Basic Latin characters does not depend on
    the case the code is typed in. *)
Theorem getFlagEmoji_case_insensitive `{CaseMapping} (s : jsstring) :
  Forall isAscii s →
  getFlagEmoji (toLowerCase s) = getFlagEmoji s ∧
  getFlagEmoji (toUpperCase s) = getFlagEmoji s.
Proof.
  intros Hs. unfold getFlagEmoji.
  by rewrite toUpperCase_toLowerCase_ascii, toUpperCase_idemp_ascii.
Qed.

Lemma getFlagEmoji_case_insensitive_witness :
  getFlagEmoji (toLowerCase (js "Tw")) = getFlagEmoji (js "Tw") ∧
  getFlagEmoji (toUpperCase (js "Tw")) = getFlagEmoji (js "Tw").
Proof. apply (getFlagEmoji_case_insensitive (js "Tw")). ascii_literal. Defined.

Lemma getFlagEmoji_upper_eq `{CaseMapping} (s t : jsstring) :
  Forall isAscii s → Forall isAscii t →
  getFlagEmoji s = getFlagEmoji t → toUpperCase s = toUpperCase t.
Proof.
  intros Hs Ht. rewrite !getFlagEmoji_ascii_units by done. intros [= Hflag].
  apply (f_equal codePoints) in Hflag.
  rewrite !codePoints_ascii_flags in Hflag by by apply asciiUpper_ascii.
  rewrite (toUpperCase_ascii s Hs), (toUpperCase_ascii t Ht).
  revert Hflag. generalize (asciiUpper <$> s) (asciiUpper <$> t).
  intros l. induction l as [|u l IH]; intros [|v k]; cbn; try done.
  intros [= Huv Hlk]. f_equal; [lia|by apply IH].
Qed.

(** X12.  Two codes of Basic Latin characters have the same flag exactly
    when they are equal up to case: the flag determines the upper-cased
    code. *)
Theorem getFlagEmoji_injective `{CaseMapping} (s t : jsstring) :
  Forall isAscii s → Forall isAscii t →
  getFlagEmoji s = getFlagEmoji t ↔ toUpperCase s = toUpperCase t.
Proof.
  intros Hs Ht. split.
  - by apply getFlagEmoji_upper_eq.
  - unfold getFlagEmoji. by intros ->.
Qed.

Lemma getFlagEmoji_injective_witness :
  getFlagEmoji (js "tw") = getFlagEmoji (js "TW") ↔
  toUpperCase (js "tw") = toUpperCase (js "TW").
Proof. apply (getFlagEmoji_injective (js "tw") (js "TW")); ascii_literal. Defined.

(** X13.  For rows whose alpha-2 codes are of Basic Latin characters the
    database is built (no flag derivation throws), with one record per row,
    in the order of the rows, each keeping the name and the three codes of
    its row. *)
Theorem database_keeps_rows `{CaseMapping} (rawCountries : list BaseCountryData.t) :
  Forall (λ d, Forall isAscii (BaseCountryData.alpha2 d)) rawCountries →
  ∃ countries, Database.countries rawCountries = Some countries ∧
    length countries = length rawCountries ∧
    Country.name <$> countries = BaseCountryData.name <$> rawCountries ∧
    Country.alpha2 <$> countries = BaseCountryData.alpha2 <$> rawCountries ∧
    Country.alpha3 <$> countries = BaseCountryData.alpha3 <$> rawCountries ∧
    Country.numeric <$> countries = BaseCountryData.numeric <$> rawCountries.
Proof.
  intros Hraw. destruct (countries_defined rawCountries Hraw) as [countries Hdb].
  exists countries. split; [done|]. apply mapM_Some in Hdb. clear Hraw.
  induction Hdb as [|d c raw cs Hdc _ IH]; [done|].
  apply enrich_flag in Hdc as (_ & Hname & H2 & H3 & Hnum).
  destruct IH as (Hlen & IHname & IH2 & IH3 & IHnum).
  cbn. rewrite Hlen, Hname, H2, H3, Hnum, IHname, IH2, IH3, IHnum. done.
Qed.

Lemma database_keeps_rows_witness :
  ∃ countries, Database.countries sampleRows = Some countries ∧
    length countries = length sampleRows ∧
    Country.name <$> countries = BaseCountryData.name <$> sampleRows ∧
    Country.alpha2 <$> countries = BaseCountryData.alpha2 <$> sampleRows ∧
    Country.alpha3 <$> countries = BaseCountryData.alpha3 <$> sampleRows ∧
    Country.numeric <$> countries = BaseCountryData.numeric <$> sampleRows.
Proof. apply (database_keeps_rows sampleRows). repeat constructor; cbn; lia. Defined.

Lemma database_flag `{CaseMapping} rawCountries countries r :
  Database.countries rawCountries = Some countries →
  r ∈ countries →
  getFlagEmoji (Country.alpha2 r) = Some (Country.flag r).
Proof.
  intros Hdb Hr. apply mapM_Some in Hdb.
  induction Hdb as [|d c raw cs Hdc _ IH]; [by apply elem_of_nil in Hr|].
  apply elem_of_cons in Hr as [->|Hr]; [|by apply IH].
  by apply enrich_flag in Hdc as [? _].
Qed.

(** X14.  Over a dataset built by the database module, the emoji returned
    for a code of Basic Latin characters is the flag that [getFlagEmoji]
    derives from that very code, in whatever case it is typed. *)
Theorem getEmojiByAlpha2_is_derived_flag `{CaseMapping}
    (rawCountries : list BaseCountryData.t) (countries : list Country.t)
    (code flag : jsstring) :
  Database.countries rawCountries = Some countries →
  Forall isAscii code →
  getEmojiByAlpha2 countries code = Some flag →
  getFlagEmoji code = Some flag.
Proof.
  intros Hdb Hcode Hflag.
  unfold getEmojiByAlpha2, getCountryByAlpha2, indexes in Hflag.
  rewrite indexes_alpha2Map in Hflag.
  apply fmap_Some in Hflag as (r & Hr & ->).
  apply fill_lookup_sound in Hr as [Hr Hkey].
  pose proof (database_flag _ _ r Hdb Hr) as Hderived.
  rewrite Hkey in Hderived. unfold getFlagEmoji in *.
  by rewrite toUpperCase_idemp_ascii in Hderived.
Qed.

Lemma getEmojiByAlpha2_is_derived_flag_witness :
  getFlagEmoji (js "jp") = Some (Country.flag japan).
Proof.
  apply (getEmojiByAlpha2_is_derived_flag sampleRows sample (js "jp")).
  - by vm_compute.
  - ascii_literal.
  - by vm_compute.
Defined.

(** X15.  Over a dataset built by the database module, the emoji returned
    for an alpha-3 or a numeric code is the flag that [getFlagEmoji] derives
    from the alpha-2 code of the record found under that code. *)
Theorem getEmoji_is_flag_of_record `{CaseMapping}
    (rawCountries : list BaseCountryData.t) (countries : list Country.t)
    (code flag : jsstring) :
  Database.countries rawCountries = Some countries →
  getEmojiByAlpha3 countries code = Some flag ∨
    getEmojiByNumeric countries code = Some flag →
  ∃ r, r ∈ countries ∧
       (getCountryByAlpha3 countries code = Some r ∨
        getCountryByNumeric countries code = Some r) ∧
       getFlagEmoji (Country.alpha2 r) = Some flag.
Proof.
  intros Hdb [Hflag|Hflag].
  - unfold getEmojiByAlpha3 in Hflag. apply fmap_Some in Hflag as (r & Hr & ->).
    assert (r ∈ countries) as Hin.
    { unfold getCountryByAlpha3, indexes in Hr. rewrite indexes_alpha3Map in Hr.
      by apply fill_lookup_sound in Hr as [? _]. }
    exists r. split_and!; [done|by left|by apply (database_flag rawCountries countries)].
  - unfold getEmojiByNumeric in Hflag. apply fmap_Some in Hflag as (r & Hr & ->).
    assert (r ∈ countries) as Hin.
    { unfold getCountryByNumeric, indexes in Hr. rewrite indexes_numericMap in Hr.
      by apply fill_lookup_sound in Hr as [? _]. }
    exists r. split_and!; [done|by right|by apply (database_flag rawCountries countries)].
Qed.

Lemma getEmoji_is_flag_of_record_witness :
  ∃ r, r ∈ sample ∧
       (getCountryByAlpha3 sample (js "kor") = Some r ∨
        getCountryByNumeric sample (js "kor") = Some r) ∧
       getFlagEmoji (Country.alpha2 r) = Some (Country.flag southKorea).
Proof.
  apply (getEmoji_is_flag_of_record sampleRows sample (js "kor")).
  - by vm_compute.
  - left. by vm_compute.
Defined.



(** * Further properties of the lookups by name *)

Lemma getCountryByName_find `{CaseMapping} (countries : list Country.t) name :
  name ≠ [] →
  getCountryByName countries name =
  List.find (λ country,
      bool_decide (toLowerCase (Country.name country) = toLowerCase name)) countries.
Proof. by destruct name. Qed.

Lemma toUpperCase_nonempty `{CaseMapping} s :
  Forall isAscii s → s ≠ [] → toUpperCase s ≠ [].
Proof. intros Hs Hne. rewrite (toUpperCase_ascii s Hs). by destruct s. Qed.

Lemma toLowerCase_nonempty `{CaseMapping} s :
  Forall isAscii s → s ≠ [] → toLowerCase s ≠ [].
Proof. intros Hs Hne. rewrite (toLowerCase_ascii s Hs). by destruct s. Qed.

Lemma toUpperCase_nil `{CaseMapping} : toUpperCase [] = [].
Proof. by rewrite toUpperCase_ascii. Qed.

Lemma toLowerCase_nil `{CaseMapping} : toLowerCase [] = [].
Proof. by rewrite toLowerCase_ascii. Qed.

Lemma isSubstring_trans (a b c : jsstring) :
  isSubstring a b → isSubstring b c → isSubstring a c.
Proof.
  intros (l1 & l2 & ->) (k1 & k2 & ->).
  exists (k1 ++ l1), (l2 ++ k2). by rewrite <- !app_assoc.
Qed.

(** X17.  For a name of Basic Latin characters, [getCountryByName] does not
    depend on the case the name is typed in. *)
Theorem getCountryByName_case_insensitive `{CaseMapping}
    (countries : list Country.t) (name : jsstring) :
  Forall isAscii name →
  getCountryByName countries (toUpperCase name) = getCountryByName countries name ∧
  getCountryByName countries (toLowerCase name) = getCountryByName countries name.
Proof.
  intros Hname. destruct (decide (name = [])) as [->|Hne].
  - by rewrite toUpperCase_nil, toLowerCase_nil.
  - rewrite !getCountryByName_find
      by auto using toUpperCase_nonempty, toLowerCase_nonempty.
    by rewrite toLowerCase_toUpperCase_ascii, toLowerCase_idemp_ascii.
Qed.

Lemma getCountryByName_case_insensitive_witness :
  getCountryByName sample (toUpperCase (js "Japan")) = getCountryByName sample (js "Japan") ∧
  getCountryByName sample (toLowerCase (js "Japan")) = getCountryByName sample (js "Japan").
Proof. apply (getCountryByName_case_insensitive sample (js "Japan")). ascii_literal. Defined.

(** X18.  For a query of Basic Latin characters, [searchByName] returns the
    same records in the same order in whatever case the query is typed. *)
Theorem searchByName_case_insensitive `{CaseMapping}
    (countries : list Country.t) (name : jsstring) :
  Forall isAscii name →
  searchByName countries (toUpperCase name) = searchByName countries name ∧
  searchByName countries (toLowerCase name) = searchByName countries name.
Proof.
  intros Hname. destruct (decide (name = [])) as [->|Hne].
  - by rewrite toUpperCase_nil, toLowerCase_nil.
  - rewrite !searchByName_sort_filter
      by auto using toUpperCase_nonempty, toLowerCase_nonempty.
    by rewrite toLowerCase_toUpperCase_ascii, toLowerCase_idemp_ascii.
Qed.

Lemma searchByName_case_insensitive_witness :
  searchByName sample (toUpperCase (js "lAn")) = searchByName sample (js "lAn") ∧
  searchByName sample (toLowerCase (js "lAn")) = searchByName sample (js "lAn").
Proof. apply (searchByName_case_insensitive sample (js "lAn")). ascii_literal. Defined.

(** X19.  When no two records have the same name up to case, every record
    of the dataset with a non-empty name is the one found by its own name. *)
Theorem getCountryByName_own_name `{CaseMapping}
    (countries : list Country.t) (c : Country.t) :
  NoDup ((λ r, toLowerCase (Country.name r)) <$> countries) →
  c ∈ countries →
  Country.name c ≠ [] →
  getCountryByName countries (Country.name c) = Some c.
Proof.
  intros Hnd Hc Hname. rewrite getCountryByName_find by done.
  pose proof (find_first
    (λ country, bool_decide
       (toLowerCase (Country.name country) = toLowerCase (Country.name c)))
    countries) as Hfind.
  destruct (List.find _ countries) as [r|].
  - destruct Hfind as (l1 & l2 & Hcs & Hr & _). apply bool_decide_eq_true in Hr.
    f_equal. apply (NoDup_fmap_eq _ countries r c Hnd); [|done|done].
    rewrite Hcs. apply elem_of_app. right. by left.
  - rewrite Forall_forall in Hfind. specialize (Hfind c Hc).
    by apply bool_decide_eq_false in Hfind.
Qed.

Lemma getCountryByName_own_name_witness :
  getCountryByName sample (Country.name southKorea) = Some southKorea.
Proof.
  apply (getCountryByName_own_name sample southKorea).
  - apply (bool_decide_unpack _). by vm_compute.
  - apply (bool_decide_unpack _). by vm_compute.
  - done.
Defined.

(** X20.  Lengthening a query narrows the result: when the lower-cased
    query [q1] occurs in the lower-cased query [q2], every record found for
    [q2] is also found for [q1]. *)
Theorem searchByName_narrows `{CaseMapping}
    (countries : list Country.t) (q1 q2 : jsstring) (c : Country.t) :
  q1 ≠ [] → q2 ≠ [] →
  isSubstring (toLowerCase q1) (toLowerCase q2) →
  c ∈ searchByName countries q2 →
  c ∈ searchByName countries q1.
Proof.
  intros Hq1 Hq2 Hsub. rewrite !searchByName_perm by done.
  rewrite !list_elem_of_In, !filter_In. unfold matches.
  rewrite !includes_substring. intros [Hin Hc].
  split; [done|]. by apply isSubstring_trans with (toLowerCase q2).
Qed.

Lemma searchByName_narrows_witness :
  poland ∈ searchByName sample (js "an").
Proof.
  apply (searchByName_narrows sample (js "an") (js "LAND") poland).
  - done.
  - done.
  - exists (js "l"), (js "d"). by vm_compute.
  - apply (bool_decide_unpack _). by vm_compute.
Defined.

(** X21.  Every record of the dataset whose name is of Basic Latin
    characters is found by any non-empty fragment of its name. *)
Theorem searchByName_finds_fragment `{CaseMapping}
    (countries : list Country.t) (c : Country.t) (query : jsstring) :
  c ∈ countries →
  query ≠ [] →
  Forall isAscii (Country.name c) →
  isSubstring query (Country.name c) →
  c ∈ searchByName countries query.
Proof.
  intros Hc Hq Hascii (l1 & l2 & Hname).
  rewrite searchByName_perm by done.
  apply list_elem_of_In, filter_In. split; [by apply list_elem_of_In|].
  unfold matches. apply includes_substring.
  assert (Forall isAscii query) as Hquery.
  { rewrite Hname in Hascii.
    apply Forall_app in Hascii as [_ Hascii]. by apply Forall_app in Hascii as [? _]. }
  rewrite (toLowerCase_ascii _ Hascii), (toLowerCase_ascii _ Hquery), Hname.
  exists (asciiLower <$> l1), (asciiLower <$> l2). by rewrite !fmap_app.
Qed.

Lemma searchByName_finds_fragment_witness :
  unitedStates ∈ searchByName sample (js "States of").
Proof.
  apply (searchByName_finds_fragment sample unitedStates (js "States of")).
  - apply (bool_decide_unpack _). by vm_compute.
  - done.
  - ascii_literal.
  - exists (js "United "), (js " America"). by vm_compute.
Defined.
